(** * smart-text-search: a shallow embedding of [src/src/index.ts]

    Strings are modelled as lists of 8-bit code units ([ascii], read as
    Latin-1), which is how JavaScript indexes the Latin-1 part of a string.
    Numbers are modelled as exact rationals [Q] where only the arithmetic
    of exact values matters; module [Double] models them as IEEE-754
    binary64 values ([spec_float] with 53 bits of precision), with rounding,
    infinities and NaN, for the sign of the score.  JS objects used as
    option records are modelled as [gmap string jsval]. *)

From Stdlib Require Import List Ascii String Bool Arith Lia QArith.
From stdpp Require Import base gmap strings.
From Stdlib Require Import Floats.SpecFloat.

Import ListNotations.
Open Scope Q_scope.

(** ** Characters and strings *)

Abbreviation jstr := (list ascii).

(** String literals of the development. *)
Definition s (x : string) : jstr := list_ascii_of_string x.

Definition chr (n : nat) : ascii := ascii_of_nat n.

Definition memChar (c : ascii) (set : jstr) : bool :=
  existsb (Ascii.eqb c) set.

Definition jstr_eqb (a b : jstr) : bool :=
  bool_decide (a = b).

(** JS [\s] restricted to code units 0..255: TAB, LF, VT, FF, CR, SPACE, NBSP. *)
Definition is_ws (c : ascii) : bool :=
  let n := nat_of_ascii c in
  ((9 <=? n) && (n <=? 13)) || (n =? 32) || (n =? 160).

(** JS [\w]: [A-Za-z0-9_]. *)
Definition is_word (c : ascii) : bool :=
  let n := nat_of_ascii c in
  ((48 <=? n) && (n <=? 57)) || ((65 <=? n) && (n <=? 90))
  || ((97 <=? n) && (n <=? 122)) || (n =? 95).

(** Upper-case letters of Latin-1 (those with a distinct lower-case form). *)
Definition is_upper (c : ascii) : bool :=
  let n := nat_of_ascii c in
  ((65 <=? n) && (n <=? 90)) || ((192 <=? n) && (n <=? 222) && negb (n =? 215)).

(** [toLocaleLowerCase] on one code unit (default locale). *)
Definition lowerChar (c : ascii) : ascii :=
  if is_upper c then ascii_of_nat (nat_of_ascii c + 32) else c.

Definition toLocaleLowerCase (t : jstr) : jstr := map lowerChar t.

(** ** getConfiguredText *)

(** [/[/#%&=-]/g] *)
Definition punctToSpace : jstr := s "/#%&=-".
(** [/[.,'!$^*;:{}`~()]/g] *)
Definition punctDeleted : jstr := s ".,'!$^*;:{}`~()".

(** [text.replace(/[/#%&=-]/g, " ")] *)
Definition replaceToSpace (t : jstr) : jstr :=
  map (fun c => if memChar c punctToSpace then " "%char else c) t.

(** [text.replace(/[.,'!$^*;:{}`~()]/g, "")] *)
Definition replaceDeleted (t : jstr) : jstr :=
  List.filter (fun c => negb (memChar c punctDeleted)) t.

(** Scanner state of [/\s\s+/g]: the whitespace run read so far. *)
Inductive wsRun := NoRun | OneWs (c : ascii) | ManyWs.

Definition pushWs (st : wsRun) (c : ascii) : wsRun :=
  match st with NoRun => OneWs c | _ => ManyWs end.

(** A run of one whitespace character is kept, a longer one becomes " ". *)
Definition flushWs (st : wsRun) : jstr :=
  match st with NoRun => [] | OneWs c => [c] | ManyWs => [" "%char] end.

Fixpoint collapseGo (st : wsRun) (t : jstr) : jstr :=
  match t with
  | [] => flushWs st
  | c :: t' =>
      if is_ws c then collapseGo (pushWs st c) t'
      else flushWs st ++ c :: collapseGo NoRun t'
  end.

(** [text.replace(/\s\s+/g, " ")]: leftmost greedy matches of [\s\s+] are
    exactly the maximal whitespace runs of length at least two. *)
Definition collapseWhitespace (t : jstr) : jstr := collapseGo NoRun t.

Definition getConfiguredText (text : jstr) (isCaseSensitive shouldMatchPunctuation
    shouldCollapseWhitespace : bool) : jstr :=
  let text := if negb isCaseSensitive then toLocaleLowerCase text else text in
  let text := if negb shouldMatchPunctuation
              then replaceDeleted (replaceToSpace text) else text in
  let text := if shouldCollapseWhitespace then collapseWhitespace text else text in
  text.

(** ** getWords *)

(** [text.split(/(\W+)/)]: the pieces between maximal runs of non-word
    characters, with the runs themselves kept (captured) in between. *)
Fixpoint splitGo (cur : jstr) (inDelim : bool) (t : jstr) : list jstr :=
  match t with
  | [] => if inDelim then [rev cur; []] else [rev cur]
  | c :: t' =>
      if is_word c then
        if inDelim then rev cur :: splitGo [c] false t' else splitGo (c :: cur) false t'
      else
        if inDelim then splitGo (c :: cur) true t' else rev cur :: splitGo [c] true t'
  end.

Definition splitNonWord (t : jstr) : list jstr := splitGo [] false t.

(** [text.match(/\S+/g) || []]: the maximal runs of non-whitespace. *)
Fixpoint matchNonWsGo (cur : jstr) (t : jstr) : list jstr :=
  match t with
  | [] => match cur with [] => [] | _ => [rev cur] end
  | c :: t' =>
      if is_ws c then
        match cur with [] => matchNonWsGo [] t' | _ => rev cur :: matchNonWsGo [] t' end
      else matchNonWsGo (c :: cur) t'
  end.

Definition matchNonWs (t : jstr) : list jstr := matchNonWsGo [] t.

(** [String.prototype.trim]: strips [\s] from both ends. *)
Fixpoint dropWs (t : jstr) : jstr :=
  match t with c :: t' => if is_ws c then dropWs t' else t | [] => [] end.

Definition trim (t : jstr) : jstr := rev (dropWs (rev (dropWs t))).

Definition getWords (text : jstr) (shouldMatchWhitespaceAndPunctuation
    shouldMatchPunctuation : bool) : list jstr :=
  if shouldMatchWhitespaceAndPunctuation then splitNonWord text
  else
    (* line 94: the filtered array is computed and thrown away *)
    let _discarded :=
      if shouldMatchPunctuation
      then List.filter (fun word => negb (Nat.eqb (length (trim word)) 0)) (matchNonWs text)
      else [] in
    matchNonWs text.

(** ** Numbers, results and the option record *)

Definition Q_of_nat (n : nat) : Q := inject_Z (Z.of_nat n).

(** The two ways a call of [search] can throw. *)
Inductive searchError :=
  | ErrRegExp               (* [new RegExp(query, "g")] or its match throws *)
  | ErrUndefinedLength.     (* [undefined.length] in the consecutive scorer *)

Inductive res (A : Type) := Ok (a : A) | Err (e : searchError).
Arguments Ok {A} a.
Arguments Err {A} e.

Record SearchOptions := {
  exactMatchPoints : Q;
  exactContainingMatchPoints : Q;
  singleWordMatchPoints : Q;
  singleWordMatchLengthMultiplier : Q;
  uniqueSingleWordMatchPoints : Q;
  uniqueSingleWordMatchLengthMultiplier : Q;
  consecutiveWordMatchPoints : Q;
  consecutiveWordMatchLengthMultiplier : Q;
  consecutiveWordSequenceMatchPoints : Q;
  consecutiveWordSequenceLengthMultiplier : Q;
  isCaseSensitive : bool;
  shouldMatchPunctuation : bool;
  shouldMatchWhitespaceAndPunctuation : bool;
  shouldCollapseWhitespace : bool }.

Definition defaultSearchOptions : SearchOptions := {|
  exactMatchPoints := 70;
  exactContainingMatchPoints := 50;
  singleWordMatchPoints := 1;
  singleWordMatchLengthMultiplier := 3 # 2;
  uniqueSingleWordMatchPoints := 2;
  uniqueSingleWordMatchLengthMultiplier := 3 # 2;
  consecutiveWordMatchPoints := 5;
  consecutiveWordMatchLengthMultiplier := 2;
  consecutiveWordSequenceMatchPoints := 1;
  consecutiveWordSequenceLengthMultiplier := 3 # 2;
  isCaseSensitive := false;
  shouldMatchPunctuation := true;
  shouldMatchWhitespaceAndPunctuation := true;
  shouldCollapseWhitespace := true |}.

(** ** Exact matchers *)

Definition getExactMatchScore (query body : jstr) : nat :=
  if jstr_eqb query body then 1 else 0.

(** The regular-expression engine on patterns without syntax characters:
    [body.match(new RegExp(query, "g"))] then finds the query literally. *)
Definition regexSyntaxChars : jstr := s "^$\.*+?()[]{}|".

Definition hasRegexSyntax (p : jstr) : bool :=
  existsb (fun c => memChar c regexSyntaxChars) p.

Fixpoint isPrefix (p t : jstr) : bool :=
  match p, t with
  | [], _ => true
  | c :: p', d :: t' => Ascii.eqb c d && isPrefix p' t'
  | _ :: _, [] => false
  end.

(** RegExpBuiltinExec from [lastIndex]: the first match position, if any. *)
Definition findFrom (p t : jstr) (i : nat) : option nat :=
  find (fun j => isPrefix p (drop j t)) (seq i (S (length t) - i)).

(** The global-match loop of [String.prototype.match]: after an empty match
    [lastIndex] is advanced by one code unit. *)
Fixpoint matchLoop (p t : jstr) (lastIndex fuel : nat) : nat :=
  match fuel with
  | O => O
  | S fuel' =>
      match findFrom p t lastIndex with
      | None => O
      | Some j =>
          S (matchLoop p t (match p with [] => S j | _ => (j + length p)%nat end) fuel')
      end
  end.

Definition literalMatchCount (p t : jstr) : nat :=
  matchLoop p t 0 (S (S (length t))).

(** [(body.match(new RegExp(query, "g")) || []).length] for literal queries;
    queries with syntax characters are not modelled and reported as
    [ErrRegExp]. *)
Definition literalEngine (query body : jstr) : res nat :=
  if hasRegexSyntax query then Err ErrRegExp else Ok (literalMatchCount query body).

(** ** getCustomWordMultiplier *)

(** The character class of the regular expression on line 66: space, the
    ASCII punctuation characters listed there, and the double quote
    (code 34). *)
Definition customPunctClass : jstr := s " `!@#$%^&*()_+-=[]{};':\|,.<>/?~" ++ [chr 34].

Definition stopWords : list jstr := [s "the"; s "a"; s "of"; s "I"; s "and"].

Definition getCustomWordMultiplier (word : jstr) : Q :=
  if (length word =? 1)%nat && existsb (fun c => memChar c customPunctClass) word
  then 1 # 10
  else if existsb (jstr_eqb word) stopWords then 1 # 2
  else 1.

(** ** Frequency scorers *)

Definition getSingleWordMatchScore (queryWords bodyWords : list jstr)
    (singleWordMatchLengthMultiplier : Q) : Q :=
  let sharedWords := List.filter (fun queryWord => existsb (jstr_eqb queryWord) bodyWords)
                       queryWords in
  fold_left (fun score queryWord =>
      score +
      Q_of_nat (length (List.filter (fun bodyWord => jstr_eqb bodyWord queryWord) bodyWords))
        * Q_of_nat (length queryWord)
        * singleWordMatchLengthMultiplier
        * getCustomWordMultiplier queryWord)
    sharedWords 0.

Definition getUniqueSingleWordMatchScore (queryWords bodyWords : list jstr)
    (uniqueSingleWordMatchLengthMultiplier : Q) : Q :=
  let sharedWords := List.filter (fun element => existsb (jstr_eqb element) bodyWords)
                       queryWords in
  fold_left (fun score word =>
      score +
      Q_of_nat (length word)
        * uniqueSingleWordMatchLengthMultiplier
        * getCustomWordMultiplier word)
    sharedWords 0.

(** ** getConsecutiveWordSequenceMatchScore *)

(** An element of [bodyWords.map((bodyWord, index) => ... ? index : "")]. *)
Inductive indexOrEmpty := Index (i : nat) | EmptyString.

(** [.filter(String)]: [String(index)] is a non-empty (truthy) string for
    every number, [String("")] is the falsy empty string. *)
Definition stringTruthy (x : indexOrEmpty) : bool :=
  match x with Index _ => true | EmptyString => false end.

Definition matchIndexes (bodyWords : list jstr) (queryWord : option jstr)
    : list indexOrEmpty :=
  List.filter stringTruthy
    (imap (fun index bodyWord =>
             if bool_decide (Some bodyWord = queryWord) then Index index else EmptyString)
          bodyWords).

(** How the inner [for] loop over [firstBodyWord] ends. *)
Inductive scanResult :=
  | ScanBreak (firstBodyWord currentConsecutiveWords currentConsecutiveWordSequence : nat)
  | ScanDone (currentConsecutiveWords currentConsecutiveWordSequence : nat)
  | ScanCrash.

(** The inner loop, from [firstBodyWord] with [fuel] iterations left before
    [firstBodyWord < matchIndexes.length] fails.  Array reads out of range
    give [undefined] ([None]); [undefined !== undefined] is false. *)
Fixpoint innerScan (queryWords bodyWords : list jstr) (firstQueryWord firstBodyWord fuel
    currentConsecutiveWords currentConsecutiveWordSequence : nat) : scanResult :=
  match fuel with
  | O => ScanDone currentConsecutiveWords currentConsecutiveWordSequence
  | S fuel' =>
      if negb (bool_decide (queryWords !! (firstQueryWord + currentConsecutiveWords)%nat
                            = bodyWords !! (firstBodyWord + currentConsecutiveWords)%nat))
      then ScanBreak firstBodyWord currentConsecutiveWords currentConsecutiveWordSequence
      else
        match bodyWords !! (firstBodyWord + currentConsecutiveWords)%nat with
        | None => ScanCrash
        | Some w =>
            innerScan queryWords bodyWords firstQueryWord (S firstBodyWord) fuel'
              (S currentConsecutiveWords) (currentConsecutiveWordSequence + length w)%nat
        end
  end.

(** One iteration of the outer loop: the two running maxima are updated
    only in the [break] branch. *)
Definition consecutiveStep (queryWords bodyWords : list jstr) (acc : nat * nat)
    (firstQueryWord : nat) : res (nat * nat) :=
  let '(mostConsecutiveWords, longestConsecutiveWordSequence) := acc in
  let count := length (matchIndexes bodyWords (queryWords !! firstQueryWord)) in
  match innerScan queryWords bodyWords firstQueryWord 0 count 0 0 with
  | ScanBreak _ cw cs =>
      Ok (Nat.max mostConsecutiveWords cw, Nat.max longestConsecutiveWordSequence cs)
  | ScanDone _ _ => Ok (mostConsecutiveWords, longestConsecutiveWordSequence)
  | ScanCrash => Err ErrUndefinedLength
  end.

Fixpoint consecutiveLoop (queryWords bodyWords : list jstr) (firstQueryWords : list nat)
    (acc : nat * nat) : res (nat * nat) :=
  match firstQueryWords with
  | [] => Ok acc
  | fq :: rest =>
      match consecutiveStep queryWords bodyWords acc fq with
      | Ok acc' => consecutiveLoop queryWords bodyWords rest acc'
      | Err e => Err e
      end
  end.

Definition getConsecutiveWordSequenceMatchScore (queryWords bodyWords : list jstr)
    (consecutiveWordMatchLengthMultiplier consecutiveWordSequenceLengthMultiplier : Q)
    : res (Q * Q) :=
  match consecutiveLoop queryWords bodyWords (seq 0 (length queryWords)) (0, 0)%nat with
  | Ok (mostConsecutiveWords, longestConsecutiveWordSequence) =>
      Ok (Q_of_nat mostConsecutiveWords * consecutiveWordMatchLengthMultiplier,
          Q_of_nat longestConsecutiveWordSequence * consecutiveWordSequenceLengthMultiplier)
  | Err e => Err e
  end.

(** ** search *)

(** The scorer functions [search] may call. *)
Inductive scorer :=
  | CallExactMatch | CallExactContaining | CallSingleWord | CallUniqueSingleWord
  | CallConsecutiveWordSequence.

(** A computation that logs the scorers it calls and may throw. *)
Definition M (A : Type) : Type := (list scorer * res A)%type.

Definition ret {A} (a : A) : M A := ([], Ok a).

Definition bindM {A B} (m : M A) (k : A -> M B) : M B :=
  match m with
  | (calls, Ok a) => let '(calls', r) := k a in (calls ++ calls', r)
  | (calls, Err e) => (calls, Err e)
  end.

Definition invoke {A} (f : scorer) (r : res A) : M A := ([f], r).

Notation "'let?' x ':=' m 'in' k" := (bindM m (fun x => k))
  (at level 200, x name, m at level 100, k at level 200).

(** [x !== 0] *)
Definition nonZero (x : Q) : bool := negb (Qeq_bool x 0).

Section Search.

(** [(body.match(new RegExp(query, "g")) || []).length], including the
    construction of the expression, which may throw. *)
Variable regexMatchCount : jstr -> jstr -> res nat.

Definition getExactContainingMatchScore (query body : jstr) : res nat :=
  regexMatchCount query body.

Definition searchRun (o : SearchOptions) (query body : jstr) : M Q :=
  let formattedQuery := getConfiguredText query (isCaseSensitive o)
                          (shouldMatchPunctuation o) (shouldCollapseWhitespace o) in
  let formattedBody := getConfiguredText body (isCaseSensitive o)
                         (shouldMatchPunctuation o) (shouldCollapseWhitespace o) in
  let score := 0 in
  let? score :=
    if nonZero (exactMatchPoints o) then
      let? e := invoke CallExactMatch (Ok (getExactMatchScore formattedQuery formattedBody)) in
      ret (score + exactMatchPoints o * Q_of_nat e)
    else ret score in
  let? score :=
    if nonZero (exactContainingMatchPoints o) then
      let? c := invoke CallExactContaining
                  (getExactContainingMatchScore formattedQuery formattedBody) in
      ret (score + exactContainingMatchPoints o * Q_of_nat c)
    else ret score in
  let queryWords := getWords formattedQuery (shouldMatchWhitespaceAndPunctuation o)
                      (shouldMatchPunctuation o) in
  let bodyWords := getWords formattedBody (shouldMatchWhitespaceAndPunctuation o)
                     (shouldMatchPunctuation o) in
  let? score :=
    if nonZero (singleWordMatchPoints o) && nonZero (singleWordMatchLengthMultiplier o) then
      let? v := invoke CallSingleWord
                  (Ok (getSingleWordMatchScore queryWords bodyWords
                         (singleWordMatchLengthMultiplier o))) in
      ret (score + singleWordMatchPoints o * v)
    else ret score in
  let? score :=
    if nonZero (uniqueSingleWordMatchPoints o)
       && nonZero (uniqueSingleWordMatchLengthMultiplier o) then
      let? v := invoke CallUniqueSingleWord
                  (Ok (getUniqueSingleWordMatchScore queryWords bodyWords
                         (uniqueSingleWordMatchLengthMultiplier o))) in
      ret (score + uniqueSingleWordMatchPoints o * v)
    else ret score in
  let? score :=
    if (nonZero (consecutiveWordMatchPoints o)
        && nonZero (consecutiveWordMatchLengthMultiplier o))
       || (nonZero (consecutiveWordSequenceMatchPoints o)
           && nonZero (consecutiveWordSequenceLengthMultiplier o)) then
      let? r := invoke CallConsecutiveWordSequence
                  (getConsecutiveWordSequenceMatchScore queryWords bodyWords
                     (consecutiveWordMatchLengthMultiplier o)
                     (consecutiveWordSequenceLengthMultiplier o)) in
      let '(consecutiveWordScore, consecutiveWordSequenceScore) := r in
      let score := score + consecutiveWordMatchPoints o * consecutiveWordScore in
      let score := score + consecutiveWordSequenceMatchPoints o * consecutiveWordSequenceScore in
      ret score
    else ret score in
  ret score.

Definition search (o : SearchOptions) (query body : jstr) : res Q :=
  snd (searchRun o query body).

Definition invokedScorers (o : SearchOptions) (query body : jstr) : list scorer :=
  fst (searchRun o query body).

End Search.

Definition wordOnly : SearchOptions :=
  {| exactMatchPoints := 70; exactContainingMatchPoints := 50;
     singleWordMatchPoints := 1; singleWordMatchLengthMultiplier := 3 # 2;
     uniqueSingleWordMatchPoints := 2; uniqueSingleWordMatchLengthMultiplier := 3 # 2;
     consecutiveWordMatchPoints := 5; consecutiveWordMatchLengthMultiplier := 2;
     consecutiveWordSequenceMatchPoints := 1; consecutiveWordSequenceLengthMultiplier := 3 # 2;
     isCaseSensitive := false; shouldMatchPunctuation := true;
     shouldMatchWhitespaceAndPunctuation := false; shouldCollapseWhitespace := true |}.

(** ** Helper definitions of the proofs *)

Definition noWs (w : jstr) : Prop := Forall (fun c => is_ws c = false) w.

Fixpoint noWsPair (t : jstr) : bool :=
  match t with
  | a :: ((b :: _) as t') => negb (is_ws a && is_ws b) && noWsPair t'
  | _ => true
  end.

Definition noUpper (t : jstr) : Prop := Forall (fun c => is_upper c = false) t.

Definition isStripped (c : ascii) : bool := memChar c punctToSpace || memChar c punctDeleted.

Definition noStripped (t : jstr) : Prop := Forall (fun c => isStripped c = false) t.

Definition stripPunct (t : jstr) : jstr := replaceDeleted (replaceToSpace t).

(** The ASCII punctuation and symbol characters (Unicode categories P and S). *)
Definition isAsciiPunctOrSymbol (c : ascii) : bool :=
  let n := nat_of_ascii c in
  ((33 <=? n) && (n <=? 47)) || ((58 <=? n) && (n <=? 64))
  || ((91 <=? n) && (n <=? 96)) || ((123 <=? n) && (n <=? 126)).

Definition replaceTok (from to : jstr) (t : jstr) : jstr :=
  if jstr_eqb t from then to else t.

(** The unique variant as the claim words it: every distinct shared query
    token counted once. *)
Definition claimedUniqueSingleWordMatchScore (queryWords bodyWords : list jstr)
    (uniqueSingleWordMatchLengthMultiplier : Q) : Q :=
  fold_left (fun score word =>
      score + Q_of_nat (length word) * uniqueSingleWordMatchLengthMultiplier
              * getCustomWordMultiplier word)
    (List.filter (fun w => existsb (jstr_eqb w) bodyWords) (remove_dups queryWords)) 0.

Definition allPointWeightsZero (o : SearchOptions) : bool :=
  Qeq_bool (exactMatchPoints o) 0 && Qeq_bool (exactContainingMatchPoints o) 0
  && Qeq_bool (singleWordMatchPoints o) 0 && Qeq_bool (uniqueSingleWordMatchPoints o) 0
  && Qeq_bool (consecutiveWordMatchPoints o) 0
  && Qeq_bool (consecutiveWordSequenceMatchPoints o) 0.

(** The guard under which [search] calls each scorer. *)
Definition guardOf (o : SearchOptions) (f : scorer) : bool :=
  match f with
  | CallExactMatch => nonZero (exactMatchPoints o)
  | CallExactContaining => nonZero (exactContainingMatchPoints o)
  | CallSingleWord =>
      nonZero (singleWordMatchPoints o) && nonZero (singleWordMatchLengthMultiplier o)
  | CallUniqueSingleWord =>
      nonZero (uniqueSingleWordMatchPoints o)
      && nonZero (uniqueSingleWordMatchLengthMultiplier o)
  | CallConsecutiveWordSequence =>
      (nonZero (consecutiveWordMatchPoints o)
       && nonZero (consecutiveWordMatchLengthMultiplier o))
      || (nonZero (consecutiveWordSequenceMatchPoints o)
          && nonZero (consecutiveWordSequenceLengthMultiplier o))
  end.

Definition noConsecutiveWordPoints : SearchOptions :=
  {| exactMatchPoints := 70; exactContainingMatchPoints := 50;
     singleWordMatchPoints := 1; singleWordMatchLengthMultiplier := 3 # 2;
     uniqueSingleWordMatchPoints := 2; uniqueSingleWordMatchLengthMultiplier := 3 # 2;
     consecutiveWordMatchPoints := 0; consecutiveWordMatchLengthMultiplier := 2;
     consecutiveWordSequenceMatchPoints := 1; consecutiveWordSequenceLengthMultiplier := 3 # 2;
     isCaseSensitive := false; shouldMatchPunctuation := true;
     shouldMatchWhitespaceAndPunctuation := true; shouldCollapseWhitespace := true |}.

Definition zeroPoints : SearchOptions :=
  {| exactMatchPoints := 0; exactContainingMatchPoints := 0;
     singleWordMatchPoints := 0; singleWordMatchLengthMultiplier := 3 # 2;
     uniqueSingleWordMatchPoints := 0; uniqueSingleWordMatchLengthMultiplier := 3 # 2;
     consecutiveWordMatchPoints := 0; consecutiveWordMatchLengthMultiplier := 2;
     consecutiveWordSequenceMatchPoints := 0; consecutiveWordSequenceLengthMultiplier := 3 # 2;
     isCaseSensitive := false; shouldMatchPunctuation := true;
     shouldMatchWhitespaceAndPunctuation := true; shouldCollapseWhitespace := true |}.

(** A JS value stored in an option record. *)
Inductive jsval := JUndefined | JNumber (q : Q) | JBoolean (b : bool).

Definition defaultSearchOptionsObject : gmap string jsval :=
  list_to_map [
    ("exactMatchPoints"%string, JNumber 70);
    ("exactContainingMatchPoints"%string, JNumber 50);
    ("singleWordMatchPoints"%string, JNumber 1);
    ("singleWordMatchLengthMultiplier"%string, JNumber (3 # 2));
    ("uniqueSingleWordMatchPoints"%string, JNumber 2);
    ("uniqueSingleWordMatchLengthMultiplier"%string, JNumber (3 # 2));
    ("consecutiveWordMatchPoints"%string, JNumber 5);
    ("consecutiveWordMatchLengthMultiplier"%string, JNumber 2);
    ("consecutiveWordSequenceMatchPoints"%string, JNumber 1);
    ("consecutiveWordSequenceLengthMultiplier"%string, JNumber (3 # 2));
    ("isCaseSensitive"%string, JBoolean false);
    ("shouldMatchPunctuation"%string, JBoolean true);
    ("shouldMatchWhitespaceAndPunctuation"%string, JBoolean true);
    ("shouldCollapseWhitespace"%string, JBoolean true)].

(** [{...target, ...source}]: every own property of [source], whatever its
    value (undefined included), overwrites the one of [target]. *)
Definition objectSpread (target source : gmap string jsval) : gmap string jsval :=
  source ∪ target.

(** [{...defaultSearchOptions, ...options}]; spreading [undefined] adds nothing. *)
Definition mergedOptions (options : option (gmap string jsval)) : gmap string jsval :=
  let o := objectSpread ∅ defaultSearchOptionsObject in
  match options with
  | None => o
  | Some override => objectSpread o override
  end.

(** [const { key } = obj]: a missing property reads as [undefined]. *)
Definition destructure (obj : gmap string jsval) (key : string) : jsval :=
  default JUndefined (obj !! key).

(** The two kinds of token of [splitNonWord]: a run of word characters
    (possibly empty) or a non-empty run of non-word characters. *)
Definition tokKind (isWord : bool) (w : jstr) : Prop :=
  if isWord then Forall (fun c => is_word c = true) w
  else w <> [] /\ Forall (fun c => is_word c = false) w.

(** Tokens alternate between the two kinds, starting with the kind
    [isWord] and ending with a word run. *)
Fixpoint alternating (isWord : bool) (l : list jstr) : Prop :=
  match l with
  | [] => False
  | w :: r =>
      tokKind isWord w /\
      match r with [] => isWord = true | _ => alternating (negb isWord) r end
  end.

(** No two neighbouring tokens are equal. *)
Fixpoint adjDistinct (l : list jstr) : Prop :=
  match l with
  | a :: ((b :: _) as r) => a <> b /\ adjDistinct r
  | _ => True
  end.

(** The whitespace-run state holds a whitespace character, if any. *)
Definition wsRunOk (st : wsRun) : Prop :=
  match st with OneWs c => is_ws c = true | _ => True end.

(** The characters accumulated by the inner scan of the consecutive scorer
    between counters [from] and [k]: at counter j it adds the length of
    [bodyWords[j + j]]. *)
Definition runLength (bodyWords : list jstr) (from k : nat) : nat :=
  fold_right (fun j acc => length (default [] (bodyWords !! (j + j)%nat)) + acc)%nat 0%nat
    (seq from (k - from)).

(** The exact-containing step of [search] does not throw: it is skipped, or
    the regular expression built from the normalized query runs. *)
Definition containingOk (regexMatchCount : jstr -> jstr -> res nat) (o : SearchOptions)
    (query body : jstr) : Prop :=
  nonZero (exactContainingMatchPoints o) = false \/
  exists n, regexMatchCount
              (getConfiguredText query (isCaseSensitive o) (shouldMatchPunctuation o)
                 (shouldCollapseWhitespace o))
              (getConfiguredText body (isCaseSensitive o) (shouldMatchPunctuation o)
                 (shouldCollapseWhitespace o)) = Ok n.

(** ** JavaScript numbers as IEEE 754 binary64

    The scoring arithmetic once more, over binary64 values ([spec_float]
    with 53 bits of precision and maximal exponent 1024, rounding to
    nearest, ties to even), as JavaScript computes it: sums and products
    round, overflow to an infinity, and [0 * Infinity] is NaN.  Token
    counts and lengths stay natural numbers (they are small integers, which
    binary64 represents exactly). *)
Module Double.

Definition number : Type := spec_float.
Definition prec : Z := 53.
Definition emax : Z := 1024.

(** [x + y] and [x * y] *)
Definition add (x y : number) : number := SFadd prec emax x y.
Definition mul (x y : number) : number := SFmul prec emax x y.

(** [+0] *)
Definition zero : number := S754_zero false.

(** A non-negative integer as a number. *)
Definition of_nat (n : nat) : number := binary_normalize prec emax (Z.of_nat n) 0 false.

(** The decimal literal [n / d], rounded to the nearest binary64 value
    ([0.1] is [literal 1 10]). *)
Definition literal (n d : nat) : number := SFdiv prec emax (of_nat n) (of_nat d).

(** [Number.MAX_VALUE] = (2^53 - 1) * 2^971. *)
Definition maxValue : number := S754_finite false 9007199254740991 971.

(** [x !== 0]: false exactly for +0 and -0, true for NaN. *)
Definition nonZero (x : number) : bool := negb (SFeqb x zero).

(** [x < 0]: false for NaN. *)
Definition ltZero (x : number) : bool := SFltb x zero.

Record SearchOptions := {
  exactMatchPoints : number;
  exactContainingMatchPoints : number;
  singleWordMatchPoints : number;
  singleWordMatchLengthMultiplier : number;
  uniqueSingleWordMatchPoints : number;
  uniqueSingleWordMatchLengthMultiplier : number;
  consecutiveWordMatchPoints : number;
  consecutiveWordMatchLengthMultiplier : number;
  consecutiveWordSequenceMatchPoints : number;
  consecutiveWordSequenceLengthMultiplier : number;
  isCaseSensitive : bool;
  shouldMatchPunctuation : bool;
  shouldMatchWhitespaceAndPunctuation : bool;
  shouldCollapseWhitespace : bool }.

Definition defaultSearchOptions : SearchOptions := {|
  exactMatchPoints := of_nat 70;
  exactContainingMatchPoints := of_nat 50;
  singleWordMatchPoints := of_nat 1;
  singleWordMatchLengthMultiplier := literal 15 10;
  uniqueSingleWordMatchPoints := of_nat 2;
  uniqueSingleWordMatchLengthMultiplier := literal 15 10;
  consecutiveWordMatchPoints := of_nat 5;
  consecutiveWordMatchLengthMultiplier := of_nat 2;
  consecutiveWordSequenceMatchPoints := of_nat 1;
  consecutiveWordSequenceLengthMultiplier := literal 15 10;
  isCaseSensitive := false;
  shouldMatchPunctuation := true;
  shouldMatchWhitespaceAndPunctuation := true;
  shouldCollapseWhitespace := true |}.

Definition getCustomWordMultiplier (word : jstr) : number :=
  if (length word =? 1)%nat && existsb (fun c => memChar c customPunctClass) word
  then literal 1 10
  else if existsb (jstr_eqb word) stopWords then literal 5 10
  else of_nat 1.

Definition getSingleWordMatchScore (queryWords bodyWords : list jstr)
    (singleWordMatchLengthMultiplier : number) : number :=
  let sharedWords := List.filter (fun queryWord => existsb (jstr_eqb queryWord) bodyWords)
                       queryWords in
  fold_left (fun score queryWord =>
      add score
        (mul (mul (mul (of_nat (length (List.filter (fun bodyWord => jstr_eqb bodyWord queryWord)
                                                     bodyWords)))
                       (of_nat (length queryWord)))
                  singleWordMatchLengthMultiplier)
             (getCustomWordMultiplier queryWord)))
    sharedWords zero.

Definition getUniqueSingleWordMatchScore (queryWords bodyWords : list jstr)
    (uniqueSingleWordMatchLengthMultiplier : number) : number :=
  let sharedWords := List.filter (fun element => existsb (jstr_eqb element) bodyWords)
                       queryWords in
  fold_left (fun score word =>
      add score
        (mul (mul (of_nat (length word)) uniqueSingleWordMatchLengthMultiplier)
             (getCustomWordMultiplier word)))
    sharedWords zero.

Definition getConsecutiveWordSequenceMatchScore (queryWords bodyWords : list jstr)
    (consecutiveWordMatchLengthMultiplier consecutiveWordSequenceLengthMultiplier : number)
    : res (number * number) :=
  match consecutiveLoop queryWords bodyWords (seq 0 (length queryWords)) (0, 0)%nat with
  | Ok (mostConsecutiveWords, longestConsecutiveWordSequence) =>
      Ok (mul (of_nat mostConsecutiveWords) consecutiveWordMatchLengthMultiplier,
          mul (of_nat longestConsecutiveWordSequence) consecutiveWordSequenceLengthMultiplier)
  | Err e => Err e
  end.

Section Search.

Variable regexMatchCount : jstr -> jstr -> res nat.

Definition getExactContainingMatchScore (query body : jstr) : res nat :=
  regexMatchCount query body.

Definition searchRun (o : SearchOptions) (query body : jstr) : M number :=
  let formattedQuery := getConfiguredText query (isCaseSensitive o)
                          (shouldMatchPunctuation o) (shouldCollapseWhitespace o) in
  let formattedBody := getConfiguredText body (isCaseSensitive o)
                         (shouldMatchPunctuation o) (shouldCollapseWhitespace o) in
  let score := zero in
  let? score :=
    if nonZero (exactMatchPoints o) then
      let? e := invoke CallExactMatch (Ok (getExactMatchScore formattedQuery formattedBody)) in
      ret (add score (mul (exactMatchPoints o) (of_nat e)))
    else ret score in
  let? score :=
    if nonZero (exactContainingMatchPoints o) then
      let? c := invoke CallExactContaining
                  (getExactContainingMatchScore formattedQuery formattedBody) in
      ret (add score (mul (exactContainingMatchPoints o) (of_nat c)))
    else ret score in
  let queryWords := getWords formattedQuery (shouldMatchWhitespaceAndPunctuation o)
                      (shouldMatchPunctuation o) in
  let bodyWords := getWords formattedBody (shouldMatchWhitespaceAndPunctuation o)
                     (shouldMatchPunctuation o) in
  let? score :=
    if nonZero (singleWordMatchPoints o) && nonZero (singleWordMatchLengthMultiplier o) then
      let? v := invoke CallSingleWord
                  (Ok (getSingleWordMatchScore queryWords bodyWords
                         (singleWordMatchLengthMultiplier o))) in
      ret (add score (mul (singleWordMatchPoints o) v))
    else ret score in
  let? score :=
    if nonZero (uniqueSingleWordMatchPoints o)
       && nonZero (uniqueSingleWordMatchLengthMultiplier o) then
      let? v := invoke CallUniqueSingleWord
                  (Ok (getUniqueSingleWordMatchScore queryWords bodyWords
                         (uniqueSingleWordMatchLengthMultiplier o))) in
      ret (add score (mul (uniqueSingleWordMatchPoints o) v))
    else ret score in
  let? score :=
    if (nonZero (consecutiveWordMatchPoints o)
        && nonZero (consecutiveWordMatchLengthMultiplier o))
       || (nonZero (consecutiveWordSequenceMatchPoints o)
           && nonZero (consecutiveWordSequenceLengthMultiplier o)) then
      let? r := invoke CallConsecutiveWordSequence
                  (getConsecutiveWordSequenceMatchScore queryWords bodyWords
                     (consecutiveWordMatchLengthMultiplier o)
                     (consecutiveWordSequenceLengthMultiplier o)) in
      let '(consecutiveWordScore, consecutiveWordSequenceScore) := r in
      let score := add score (mul (consecutiveWordMatchPoints o) consecutiveWordScore) in
      let score := add score (mul (consecutiveWordSequenceMatchPoints o)
                                  consecutiveWordSequenceScore) in
      ret score
    else ret score in
  ret score.

Definition search (o : SearchOptions) (query body : jstr) : res number :=
  snd (searchRun o query body).

End Search.

(** No numeric option is negative ([x < 0] is false for each). *)
Definition optionsNotNegative (o : SearchOptions) : bool :=
  negb (ltZero (exactMatchPoints o)) && negb (ltZero (exactContainingMatchPoints o))
  && negb (ltZero (singleWordMatchPoints o))
  && negb (ltZero (singleWordMatchLengthMultiplier o))
  && negb (ltZero (uniqueSingleWordMatchPoints o))
  && negb (ltZero (uniqueSingleWordMatchLengthMultiplier o))
  && negb (ltZero (consecutiveWordMatchPoints o))
  && negb (ltZero (consecutiveWordMatchLengthMultiplier o))
  && negb (ltZero (consecutiveWordSequenceMatchPoints o))
  && negb (ltZero (consecutiveWordSequenceLengthMultiplier o)).

(** The defaults with the consecutive-sequence strategy weighted 0 and its
    multiplier at [Number.MAX_VALUE]; the consecutive-word strategy still
    runs the shared scorer. *)
Definition maxSequenceMultiplier : SearchOptions :=
  {| exactMatchPoints := of_nat 70; exactContainingMatchPoints := of_nat 50;
     singleWordMatchPoints := of_nat 1; singleWordMatchLengthMultiplier := literal 15 10;
     uniqueSingleWordMatchPoints := of_nat 2;
     uniqueSingleWordMatchLengthMultiplier := literal 15 10;
     consecutiveWordMatchPoints := of_nat 5; consecutiveWordMatchLengthMultiplier := of_nat 2;
     consecutiveWordSequenceMatchPoints := zero;
     consecutiveWordSequenceLengthMultiplier := maxValue;
     isCaseSensitive := false; shouldMatchPunctuation := true;
     shouldMatchWhitespaceAndPunctuation := true; shouldCollapseWhitespace := true |}.

(** Structural reading of [!(x < 0)]: a zero of either sign, NaN, or a
    positive finite or infinite value. *)
Definition notNegative (x : number) : Prop :=
  match x with
  | S754_infinity true | S754_finite true _ _ => False
  | _ => True
  end.

End Double.

(** * Proofs *)

(** Sample evaluations of the model. *)
Example split_ex1 : splitNonWord (s "a b") = [s "a"; s " "; s "b"].
Proof. reflexivity. Qed.
Example split_ex2 : splitNonWord (s " a ") = [s ""; s " "; s "a"; s " "; s ""].
Proof. reflexivity. Qed.
Example nonws_ex : matchNonWs (s "  ab c ") = [s "ab"; s "c"].
Proof. reflexivity. Qed.
Example collapse_ex : collapseWhitespace (s "a  b c   ") = s "a b c ".
Proof. reflexivity. Qed.
Example literal_ex1 : literalMatchCount (s "abc") (s "abc abc abc") = 3%nat.
Proof. reflexivity. Qed.
Example literal_ex2 : literalMatchCount (s "aa") (s "aaaaa") = 2%nat.
Proof. reflexivity. Qed.
Example literal_ex3 : literalMatchCount [] (s "abc") = 4%nat.
Proof. reflexivity. Qed.

(** ** Tokenizer *)

Lemma matchNonWsGo_tokens (t cur : jstr) :
  noWs cur ->
  Forall (fun w => w <> [] /\ noWs w) (matchNonWsGo cur t).
Proof.
  revert cur; induction t as [|c t IH]; intros cur Hcur; simpl.
  - destruct cur as [|x cur']; constructor; [|constructor].
    split; [intros H; apply (f_equal (@length ascii)) in H; rewrite length_rev in H;
            simpl in H; discriminate|].
    unfold noWs; apply Forall_rev; exact Hcur.
  - destruct (is_ws c) eqn:Hc.
    + destruct cur as [|x cur'].
      * apply IH; constructor.
      * constructor; [|apply IH; constructor].
        split; [intros H; apply (f_equal (@length ascii)) in H; rewrite length_rev in H;
                simpl in H; discriminate|].
        unfold noWs; apply Forall_rev; exact Hcur.
    + apply IH; constructor; assumption.
Qed.

Lemma dropWs_noWs (w : jstr) : noWs w -> dropWs w = w.
Proof.
  destruct w as [|c w]; simpl; [reflexivity|].
  intros H; inversion H; subst; rewrite H2; reflexivity.
Qed.

Lemma trim_noWs (w : jstr) : noWs w -> trim w = w.
Proof.
  intros H; unfold trim.
  rewrite (dropWs_noWs w H), (dropWs_noWs (rev w)) by (apply Forall_rev; exact H).
  apply rev_involutive.
Qed.

(** ** Normalizer *)

Lemma noWsPair_cons_nonws (c : ascii) (t : jstr) :
  is_ws c = false -> noWsPair (c :: t) = noWsPair t.
Proof. intros Hc; destruct t; simpl; [reflexivity|]; rewrite Hc; reflexivity. Qed.

Lemma noWsPair_cons2 (a b : ascii) (t : jstr) :
  noWsPair (a :: b :: t) = negb (is_ws a && is_ws b) && noWsPair (b :: t).
Proof. reflexivity. Qed.

Lemma collapseGo_noWsPair (t : jstr) (st : wsRun) : noWsPair (collapseGo st t) = true.
Proof.
  revert st; induction t as [|c t IH]; intros st; cbn [collapseGo].
  - destruct st; reflexivity.
  - destruct (is_ws c) eqn:Hc; [apply IH|].
    destruct st; cbn [flushWs app].
    + rewrite noWsPair_cons_nonws by assumption; apply IH.
    + rewrite noWsPair_cons2, Hc, andb_false_r; simpl negb; cbn [andb].
      rewrite noWsPair_cons_nonws by assumption; apply IH.
    + rewrite noWsPair_cons2, Hc, andb_false_r; simpl negb; cbn [andb].
      rewrite noWsPair_cons_nonws by assumption; apply IH.
Qed.

Lemma collapseGo_id (t : jstr) :
  (noWsPair t = true -> collapseGo NoRun t = t) /\
  (forall c, is_ws c = true -> noWsPair (c :: t) = true -> collapseGo (OneWs c) t = c :: t).
Proof.
  induction t as [|x t [IH1 IH2]].
  - split; [reflexivity|]; intros; reflexivity.
  - split.
    + intros H; cbn [collapseGo pushWs flushWs app].
      destruct (is_ws x) eqn:Hx.
      * apply IH2; assumption.
      * rewrite noWsPair_cons_nonws in H by assumption.
        rewrite IH1 by assumption; reflexivity.
    + intros c Hc H; cbn [collapseGo pushWs flushWs app].
      rewrite noWsPair_cons2 in H.
      destruct (is_ws x) eqn:Hx.
      * rewrite Hc in H; discriminate.
      * apply andb_prop in H as [_ H].
        rewrite noWsPair_cons_nonws in H by assumption.
        rewrite IH1 by assumption; reflexivity.
Qed.

Lemma collapseWhitespace_id (t : jstr) : noWsPair t = true -> collapseWhitespace t = t.
Proof. apply collapseGo_id. Qed.

(** Every character of the output of [collapseGo] is an input character or a space. *)
Lemma collapseGo_Forall (P : ascii -> Prop) (t : jstr) (st : wsRun) :
  P " "%char -> Forall P t -> Forall P (flushWs st) -> Forall P (collapseGo st t).
Proof.
  intros Hsp; revert st; induction t as [|c t IH]; intros st Ht Hst; simpl; [exact Hst|].
  inversion Ht; subst.
  destruct (is_ws c).
  - apply IH; [assumption|]. destruct st; simpl; repeat constructor; assumption.
  - apply Forall_app; split; [exact Hst|]. constructor; [assumption|].
    apply IH; [assumption | constructor].
Qed.

Lemma lowerChar_not_upper (c : ascii) : is_upper (lowerChar c) = false.
Proof.
  destruct c as [b0 b1 b2 b3 b4 b5 b6 b7];
    destruct b0, b1, b2, b3, b4, b5, b6, b7; vm_compute; reflexivity.
Qed.

Lemma toLocaleLowerCase_noUpper (t : jstr) : noUpper (toLocaleLowerCase t).
Proof.
  unfold noUpper, toLocaleLowerCase; apply Forall_map, List.Forall_forall.
  intros c _; apply lowerChar_not_upper.
Qed.

Lemma toLocaleLowerCase_id (t : jstr) : noUpper t -> toLocaleLowerCase t = t.
Proof.
  induction 1 as [|c t Hc _ IH]; [reflexivity|].
  unfold toLocaleLowerCase in *; simpl; rewrite IH.
  unfold lowerChar; rewrite Hc; reflexivity.
Qed.

Lemma stripPunct_noStripped (t : jstr) : noStripped (stripPunct t).
Proof.
  unfold noStripped, stripPunct, replaceDeleted, replaceToSpace.
  apply List.Forall_forall; intros c Hc.
  apply filter_In in Hc as [Hin Hdel]; apply in_map_iff in Hin as [d [Hd _]].
  apply negb_true_iff in Hdel; unfold isStripped; rewrite Hdel, orb_false_r.
  subst c; destruct (memChar d punctToSpace) eqn:E; [reflexivity | exact E].
Qed.

Lemma stripPunct_Forall (P : ascii -> Prop) (t : jstr) :
  P " "%char -> Forall P t -> Forall P (stripPunct t).
Proof.
  intros Hsp Ht; unfold stripPunct, replaceDeleted, replaceToSpace.
  rewrite List.Forall_forall in *; intros x Hx.
  apply filter_In in Hx as [Hx _]; apply in_map_iff in Hx as [d [Hd Hin]]; subst x.
  destruct (memChar d punctToSpace); auto.
Qed.

Lemma stripPunct_id (t : jstr) : noStripped t -> stripPunct t = t.
Proof.
  induction 1 as [|c t Hc _ IH]; [reflexivity|].
  unfold isStripped in Hc; apply orb_false_elim in Hc as [H1 H2].
  unfold stripPunct, replaceDeleted, replaceToSpace in *; cbn [map].
  rewrite H1; cbn [List.filter]; rewrite H2; cbn [negb]; rewrite IH; reflexivity.
Qed.

Lemma collapseWhitespace_Forall (P : ascii -> Prop) (t : jstr) :
  P " "%char -> Forall P t -> Forall P (collapseWhitespace t).
Proof. intros Hsp Ht; apply collapseGo_Forall; [exact Hsp | exact Ht | constructor]. Qed.

(** The three facts that make a string a fixed point of [getConfiguredText]. *)
Lemma getConfiguredText_output (t : jstr) (a b c : bool) :
  let u := getConfiguredText t a b c in
  (a = false -> noUpper u) /\ (b = false -> noStripped u) /\
  (c = true -> noWsPair u = true).
Proof.
  assert (Hu : is_upper " "%char = false) by reflexivity.
  assert (Hs : isStripped " "%char = false) by reflexivity.
  destruct a, b, c; unfold getConfiguredText; cbn [negb];
    repeat split; intros E; try discriminate;
    repeat first
      [ apply collapseGo_noWsPair
      | apply collapseWhitespace_Forall; [assumption|]
      | apply stripPunct_noStripped
      | apply stripPunct_Forall; [assumption|]
      | apply toLocaleLowerCase_noUpper ].
Qed.

Lemma getConfiguredText_fixed (u : jstr) (a b c : bool) :
  (a = false -> noUpper u) -> (b = false -> noStripped u) ->
  (c = true -> noWsPair u = true) -> getConfiguredText u a b c = u.
Proof.
  intros Ha Hb Hc; destruct a, b, c; unfold getConfiguredText; cbn [negb];
    repeat first
      [ progress fold (stripPunct u)
      | rewrite collapseWhitespace_id by auto
      | rewrite stripPunct_id by auto
      | rewrite toLocaleLowerCase_id by auto ]; try reflexivity.
Qed.

Lemma filter_all_true {A} (f : A -> bool) (l : list A) :
  Forall (fun x => f x = true) l -> List.filter f l = l.
Proof. induction 1; simpl; [reflexivity|]; rewrite H, IHForall; reflexivity. Qed.

(** ** Claims *)

(** C10 (confirmed).  In word-only mode ([shouldMatchWhitespaceAndPunctuation]
    false) [getWords] returns the maximal runs of non-whitespace characters
    ([text.match(/\S+/g) || []]) whatever [shouldMatchPunctuation] is: the
    filtered array of line 94 is discarded.  The tokens are non-empty and
    contain no whitespace, so that filter would not have removed any. *)
Theorem getWords_word_only_flag_independent (text : jstr) :
  getWords text false true = matchNonWs text /\
  getWords text false false = matchNonWs text /\
  Forall (fun w => w <> [] /\ noWs w) (matchNonWs text) /\
  List.filter (fun word => negb (Nat.eqb (length (trim word)) 0)) (matchNonWs text)
    = matchNonWs text.
Proof.
  assert (Htok := matchNonWsGo_tokens text [] (List.Forall_nil _)).
  split; [reflexivity|]. split; [reflexivity|]. split; [exact Htok|].
  apply filter_all_true. eapply List.Forall_impl; [|exact Htok].
  intros w [Hne Hw]; rewrite trim_noWs by exact Hw.
  destruct w; [contradiction|reflexivity].
Qed.

(** C8 (corrected, counterexample).  ["A"] has no run of two whitespace
    characters, yet with case folding on (and collapsing on) it is not
    returned unchanged. *)
Lemma getConfiguredText_no_ws_run_changed :
  noWsPair (s "A") = true /\ getConfiguredText (s "A") false true true = s "a" /\
  s "a" <> s "A".
Proof. split; [reflexivity|]. split; [reflexivity|]. intros H; inversion H. Qed.

(** C8 (corrected).  For every flag setting [getConfiguredText] is
    idempotent: applied to its own output it returns that output unchanged.
    A string without a run of two or more whitespace characters need not be
    its own output (see the counterexample): only the output of a previous
    call is guaranteed to be left unchanged. *)
Theorem getConfiguredText_idempotent (t : jstr) (a b c : bool) :
  getConfiguredText (getConfiguredText t a b c) a b c = getConfiguredText t a b c.
Proof.
  destruct (getConfiguredText_output t a b c) as [H1 [H2 H3]].
  apply getConfiguredText_fixed; assumption.
Qed.

(** ** Dampening *)

Lemma customPunctClass_spec (c : ascii) :
  memChar c customPunctClass = Ascii.eqb c " "%char || isAsciiPunctOrSymbol c.
Proof.
  destruct c as [b0 b1 b2 b3 b4 b5 b6 b7];
    destruct b0, b1, b2, b3, b4, b5, b6, b7; vm_compute; reflexivity.
Qed.

Lemma jstr_eqb_true (a b : jstr) : jstr_eqb a b = true <-> a = b.
Proof. unfold jstr_eqb; apply bool_decide_eq_true. Qed.

Lemma jstr_eqb_refl (a : jstr) : jstr_eqb a a = true.
Proof. apply jstr_eqb_true; reflexivity. Qed.

Lemma jstr_eqb_false (a b : jstr) : a <> b -> jstr_eqb a b = false.
Proof. intros H; destruct (jstr_eqb a b) eqn:E; [apply jstr_eqb_true in E; contradiction|reflexivity]. Qed.

Lemma count_replaceTok (from to : jstr) (b : list jstr) :
  ~ In to b ->
  length (List.filter (fun x => jstr_eqb x to) (map (replaceTok from to) b))
  = length (List.filter (fun x => jstr_eqb x from) b).
Proof.
  induction b as [|x b IH]; intros Hn; [reflexivity|].
  cbn [map List.filter]. unfold replaceTok at 1.
  assert (Hx : x <> to) by (intros E; apply Hn; left; auto).
  assert (IH' := IH (fun H => Hn (or_intror H))).
  destruct (jstr_eqb x from) eqn:E1.
  - rewrite jstr_eqb_refl; cbn [length]; rewrite IH'; reflexivity.
  - rewrite jstr_eqb_false by exact Hx; exact IH'.
Qed.

Lemma existsb_replaceTok (from to : jstr) (b : list jstr) :
  ~ In to b ->
  existsb (jstr_eqb to) (map (replaceTok from to) b) = existsb (jstr_eqb from) b.
Proof.
  induction b as [|x b IH]; intros Hn; [reflexivity|].
  cbn [map existsb]. unfold replaceTok at 1.
  assert (Hx : x <> to) by (intros E; apply Hn; left; auto).
  assert (IH' := IH (fun H => Hn (or_intror H))).
  destruct (jstr_eqb x from) eqn:E1.
  - apply jstr_eqb_true in E1; subst x; rewrite !jstr_eqb_refl; reflexivity.
  - rewrite jstr_eqb_false by (intros E; apply Hx; auto).
    rewrite jstr_eqb_false by (intros E; subst; rewrite jstr_eqb_refl in E1; discriminate).
    exact IH'.
Qed.

Lemma single_one (t : jstr) (b : list jstr) (m : Q) :
  getSingleWordMatchScore [t] b m =
  if existsb (jstr_eqb t) b then
    0 + Q_of_nat (length (List.filter (fun x => jstr_eqb x t) b))
        * Q_of_nat (length t) * m * getCustomWordMultiplier t
  else 0.
Proof. unfold getSingleWordMatchScore; cbn [List.filter]; destruct (existsb _ b); reflexivity. Qed.

Lemma unique_one (t : jstr) (b : list jstr) (m : Q) :
  getUniqueSingleWordMatchScore [t] b m =
  if existsb (jstr_eqb t) b then 0 + Q_of_nat (length t) * m * getCustomWordMultiplier t
  else 0.
Proof. unfold getUniqueSingleWordMatchScore; cbn [List.filter]; destruct (existsb _ b); reflexivity. Qed.

(** C9 (corrected, counterexample).  The single-space token is whitespace,
    not a punctuation or symbol character, and not a stop-word, yet it is
    damped to 0.1 rather than left at 1. *)
Lemma getCustomWordMultiplier_space :
  getCustomWordMultiplier [" "%char] = 1 # 10 /\ isAsciiPunctOrSymbol " "%char = false /\
  ~ In [" "%char] stopWords.
Proof. split; [reflexivity|]. split; [reflexivity|]. simpl; intuition discriminate. Qed.

(** C9 (corrected).  [getCustomWordMultiplier] returns 0.1 for the
    one-character tokens of its class, which is the space character together
    with the ASCII punctuation and symbol characters; 0.5 for exactly the
    five stop-words "the", "a", "of", "I", "and", compared case-sensitively
    (so "The" gets 1); and 1 for every other token.  Consequently a shared
    token "the" contributes exactly half of what an equally long shared
    token of multiplier 1 contributes to either frequency score, all else
    equal. *)
Theorem getCustomWordMultiplier_cases :
  (forall c : ascii, memChar c customPunctClass = Ascii.eqb c " "%char || isAsciiPunctOrSymbol c) /\
  (forall c : ascii, memChar c customPunctClass = true -> getCustomWordMultiplier [c] = 1 # 10) /\
  (forall w : jstr, In w stopWords -> getCustomWordMultiplier w = 1 # 2) /\
  (forall w : jstr, (forall c, w = [c] -> memChar c customPunctClass = false) ->
     ~ In w stopWords -> getCustomWordMultiplier w = 1) /\
  getCustomWordMultiplier (s "The") = 1 /\
  (forall (w : jstr) (b : list jstr) (m : Q),
     length w = 3%nat -> getCustomWordMultiplier w = 1 -> ~ In w b ->
     getSingleWordMatchScore [s "the"] b m
       == (1 # 2) * getSingleWordMatchScore [w] (map (replaceTok (s "the") w) b) m /\
     getUniqueSingleWordMatchScore [s "the"] b m
       == (1 # 2) * getUniqueSingleWordMatchScore [w] (map (replaceTok (s "the") w) b) m).
Proof.
  split; [exact customPunctClass_spec|].
  split.
  { intros c Hc; unfold getCustomWordMultiplier; cbn [length existsb Nat.eqb andb].
    rewrite Hc; reflexivity. }
  split.
  { intros w Hw; simpl in Hw; intuition subst; reflexivity. }
  split.
  { intros w Hc Hs; unfold getCustomWordMultiplier.
    destruct ((length w =? 1)%nat && existsb (fun c => memChar c customPunctClass) w) eqn:E.
    - apply andb_prop in E as [E1 E2]; apply Nat.eqb_eq in E1.
      destruct w as [|c [|d w]]; try discriminate.
      cbn [existsb] in E2; rewrite orb_false_r, Hc in E2 by reflexivity; discriminate.
    - destruct (existsb (jstr_eqb w) stopWords) eqn:E2; [|reflexivity].
      apply existsb_exists in E2 as [x [Hx Ex]]; apply jstr_eqb_true in Ex; subst x.
      contradiction. }
  split; [reflexivity|].
  intros w b m Hlen Hw Hn.
  rewrite !single_one, !unique_one, existsb_replaceTok, count_replaceTok by exact Hn.
  destruct (existsb (jstr_eqb (s "the")) b); [|split; ring].
  rewrite Hw, Hlen. change (getCustomWordMultiplier (s "the")) with (1 # 2).
  change (length (s "the")) with 3%nat. split; ring.
Qed.

Lemma getCustomWordMultiplier_cases_witness :
  getSingleWordMatchScore [s "the"] [s "the"; s " "; s "dog"] (3 # 2)
    == (1 # 2) * getSingleWordMatchScore [s "cat"]
                   (map (replaceTok (s "the") (s "cat")) [s "the"; s " "; s "dog"]) (3 # 2).
Proof.
  apply (proj2 (proj2 (proj2 (proj2 (proj2 getCustomWordMultiplier_cases)))));
    [reflexivity | reflexivity | simpl; intuition discriminate].
Defined.

(** ** Frequency scorer, unique variant *)

(** C3 (code_bug).  Query "x x" against body "x" under the default options:
    the query tokens are ["x"; " "; "x"], the shared token "x" is counted
    twice by [getUniqueSingleWordMatchScore] (1.5 each, 3 in total), where
    counting each distinct token once gives 1.5. *)
Lemma getUniqueSingleWordMatchScore_repeated_query_token :
  let o := defaultSearchOptions in
  let queryWords := getWords (getConfiguredText (s "x x") (isCaseSensitive o)
                      (shouldMatchPunctuation o) (shouldCollapseWhitespace o))
                      (shouldMatchWhitespaceAndPunctuation o) (shouldMatchPunctuation o) in
  let bodyWords := getWords (getConfiguredText (s "x") (isCaseSensitive o)
                      (shouldMatchPunctuation o) (shouldCollapseWhitespace o))
                      (shouldMatchWhitespaceAndPunctuation o) (shouldMatchPunctuation o) in
  queryWords = [s "x"; s " "; s "x"] /\ bodyWords = [s "x"] /\
  getUniqueSingleWordMatchScore queryWords bodyWords
    (uniqueSingleWordMatchLengthMultiplier o) == 3 /\
  claimedUniqueSingleWordMatchScore queryWords bodyWords
    (uniqueSingleWordMatchLengthMultiplier o) == 3 # 2.
Proof. vm_compute. repeat split; reflexivity. Qed.

(** ** Exact-containing matcher on the empty query *)

Lemma findFrom_empty (t : jstr) (i : nat) :
  findFrom [] t i = if (i <=? length t)%nat then Some i else None.
Proof.
  unfold findFrom.
  destruct (S (length t) - i)%nat as [|k] eqn:E.
  - simpl. destruct (Nat.leb_spec i (length t)); [lia | reflexivity].
  - simpl. destruct (Nat.leb_spec i (length t)); [reflexivity | lia].
Qed.

Lemma matchLoop_empty (t : jstr) (fuel i : nat) :
  (S (length t) - i <= fuel)%nat -> matchLoop [] t i fuel = (S (length t) - i)%nat.
Proof.
  revert i; induction fuel as [|fuel IH]; intros i Hf; cbn [matchLoop].
  - lia.
  - rewrite findFrom_empty. destruct (Nat.leb_spec i (length t)).
    + rewrite IH by lia. lia.
    + lia.
Qed.

Lemma literalMatchCount_empty (t : jstr) : literalMatchCount [] t = S (length t).
Proof. unfold literalMatchCount; rewrite matchLoop_empty by lia; lia. Qed.

(** C4 (corrected, counterexample).  Empty query, body "b", default
    options: the empty pattern matches twice in "b", so the exact-containing
    strategy contributes 50 * 2 = 100, which is the whole score (with that
    strategy switched off the score is 0). *)
Lemma search_empty_query_containing :
  match search literalEngine defaultSearchOptions [] (s "b") with
  | Ok v => v == 100 | Err _ => False end /\
  match search literalEngine
          {| exactMatchPoints := 70; exactContainingMatchPoints := 0;
             singleWordMatchPoints := 1; singleWordMatchLengthMultiplier := 3 # 2;
             uniqueSingleWordMatchPoints := 2; uniqueSingleWordMatchLengthMultiplier := 3 # 2;
             consecutiveWordMatchPoints := 5; consecutiveWordMatchLengthMultiplier := 2;
             consecutiveWordSequenceMatchPoints := 1;
             consecutiveWordSequenceLengthMultiplier := 3 # 2;
             isCaseSensitive := false; shouldMatchPunctuation := true;
             shouldMatchWhitespaceAndPunctuation := true; shouldCollapseWhitespace := true |}
          [] (s "b") with
  | Ok v => v == 0 | Err _ => False end.
Proof. vm_compute. split; reflexivity. Qed.

Lemma filter_none_shared (q : list jstr) :
  List.filter (fun w => existsb (jstr_eqb w) []) q = [].
Proof. induction q; [reflexivity|]; exact IHq. Qed.

Lemma consecutiveLoop_empty_body (q : list jstr) (idx : list nat) (acc : nat * nat) :
  consecutiveLoop q [] idx acc = Ok acc.
Proof.
  revert acc; induction idx as [|i idx IH]; intros [m l]; [reflexivity|].
  cbn [consecutiveLoop]. unfold consecutiveStep. cbn. apply IH.
Qed.

(** C4 (corrected).  The empty query normalizes to the empty string, and the
    empty pattern matches once at every position of the normalized body,
    end included: n + 1 matches for a body of n characters, so the
    exact-containing strategy contributes exactContainingMatchPoints * (n + 1).
    Empty token sequences (on either side) contribute 0 to the two frequency
    scorers and to the consecutive-sequence scorer. *)
Theorem empty_inputs_contributions :
  (forall a b c : bool, getConfiguredText [] a b c = []) /\
  (forall body : jstr,
     getExactContainingMatchScore literalEngine [] body = Ok (S (length body))) /\
  (forall (q b : list jstr) (m : Q),
     getSingleWordMatchScore [] b m = 0 /\ getSingleWordMatchScore q [] m = 0 /\
     getUniqueSingleWordMatchScore [] b m = 0 /\ getUniqueSingleWordMatchScore q [] m = 0) /\
  (forall (q b : list jstr) (m1 m2 : Q),
     getConsecutiveWordSequenceMatchScore [] b m1 m2 = Ok (Q_of_nat 0 * m1, Q_of_nat 0 * m2) /\
     getConsecutiveWordSequenceMatchScore q [] m1 m2 = Ok (Q_of_nat 0 * m1, Q_of_nat 0 * m2)).
Proof.
  split; [intros [] [] []; reflexivity|].
  split.
  { intros body; unfold getExactContainingMatchScore, literalEngine; cbn [hasRegexSyntax existsb].
    rewrite literalMatchCount_empty; reflexivity. }
  split.
  { intros q b m; unfold getSingleWordMatchScore, getUniqueSingleWordMatchScore.
    rewrite !filter_none_shared; repeat split; reflexivity. }
  intros q b m1 m2; unfold getConsecutiveWordSequenceMatchScore.
  rewrite consecutiveLoop_empty_body; split; reflexivity.
Qed.

(** ** Consecutive-sequence scorer *)

Lemma matchIndexes_count_gen (b : list jstr) (qw : option jstr)
    (f : nat -> jstr -> indexOrEmpty) :
  (forall i w, stringTruthy (f i w) = bool_decide (Some w = qw)) ->
  length (List.filter stringTruthy (imap f b))
  = length (List.filter (fun w => bool_decide (Some w = qw)) b).
Proof.
  revert f; induction b as [|x b IH]; intros f Hf; [reflexivity|].
  rewrite imap_cons; cbn [List.filter]. rewrite Hf.
  destruct (bool_decide (Some x = qw)); cbn [length]; rewrite IH; auto;
    intros i w; apply Hf.
Qed.

(** [matchIndexes.length] is the number of body tokens equal to the start token. *)
Lemma matchIndexes_count (b : list jstr) (qw : option jstr) :
  length (matchIndexes b qw) = length (List.filter (fun w => bool_decide (Some w = qw)) b).
Proof.
  unfold matchIndexes; apply matchIndexes_count_gen.
  intros i w; destruct (bool_decide (Some w = qw)); reflexivity.
Qed.

(** The inner loop from counter [fb] with run length [fb]: the run length
    stays equal to the counter, and [bodyWords] is read at counter + run. *)
Lemma innerScan_shape (q b : list jstr) (fq fuel fb sq : nat) :
  match innerScan q b fq fb fuel fb sq with
  | ScanBreak k cw _ =>
      cw = k /\ (fb <= k < fb + fuel)%nat /\
      (forall j, (fb <= j < k)%nat -> q !! (fq + j)%nat = b !! (j + j)%nat) /\
      q !! (fq + k)%nat <> b !! (k + k)%nat
  | ScanDone cw _ =>
      cw = (fb + fuel)%nat /\
      (forall j, (fb <= j < fb + fuel)%nat -> q !! (fq + j)%nat = b !! (j + j)%nat)
  | ScanCrash =>
      exists k, (fb <= k < fb + fuel)%nat /\ q !! (fq + k)%nat = None /\ b !! (k + k)%nat = None
  end.
Proof.
  revert fb sq; induction fuel as [|fuel IH]; intros fb sq; cbn [innerScan].
  - split; [lia|]. intros j Hj; lia.
  - destruct (bool_decide (q !! (fq + fb)%nat = b !! (fb + fb)%nat)) eqn:E; cbn [negb].
    + apply bool_decide_eq_true_1 in E.
      destruct (b !! (fb + fb)%nat) as [w|] eqn:Eb.
      * specialize (IH (S fb) (sq + length w)%nat).
        destruct (innerScan q b fq (S fb) fuel (S fb) (sq + length w)) as [k cw cs|cw cs|].
        -- destruct IH as [H1 [H2 [H3 H4]]]. split; [exact H1|]. split; [lia|]. split; [|exact H4].
           intros j Hj. destruct (Nat.eq_dec j fb) as [->|]; [rewrite E, Eb; reflexivity|].
           apply H3; lia.
        -- destruct IH as [H1 H3]. split; [lia|].
           intros j Hj. destruct (Nat.eq_dec j fb) as [->|]; [rewrite E, Eb; reflexivity|].
           apply H3; lia.
        -- destruct IH as [k [Hk Hk']]. exists k; split; [lia | exact Hk'].
      * exists fb. split; [lia|]. split; assumption.
    + apply bool_decide_eq_false_1 in E.
      split; [reflexivity|]. split; [lia|]. split; [intros j Hj; lia | exact E].
Qed.

(** Reads of the body before a break succeed. *)
Lemma innerScan_break_read (q b : list jstr) (fq fuel : nat) : forall fb sq k cw cs,
  innerScan q b fq fb fuel fb sq = ScanBreak k cw cs ->
  forall j, (fb <= j < k)%nat -> b !! (j + j)%nat <> None.
Proof.
  induction fuel as [|fuel IH]; intros fb sq k cw cs H j Hj; cbn [innerScan] in H;
    [discriminate|].
  destruct (bool_decide (q !! (fq + fb)%nat = b !! (fb + fb)%nat)); cbn [negb] in H.
  - destruct (b !! (fb + fb)%nat) as [w|] eqn:Eb; [|discriminate].
    destruct (Nat.eq_dec j fb) as [->|Hne]; [rewrite Eb; discriminate|].
    apply (IH (S fb) _ k cw cs H); lia.
  - injection H as <- _ _; lia.
Qed.

(** At a break the accumulated length is the sum of the lengths of the body
    tokens read before it. *)
Lemma innerScan_break_len (q b : list jstr) (fq fuel : nat) : forall fb sq k cw cs,
  innerScan q b fq fb fuel fb sq = ScanBreak k cw cs -> cs = (sq + runLength b fb k)%nat.
Proof.
  induction fuel as [|fuel IH]; intros fb sq k cw cs H; cbn [innerScan] in H; [discriminate|].
  destruct (bool_decide (q !! (fq + fb)%nat = b !! (fb + fb)%nat)); cbn [negb] in H.
  - destruct (b !! (fb + fb)%nat) as [w|] eqn:Eb; [|discriminate].
    pose proof (innerScan_shape q b fq fuel (S fb) (sq + length w)) as Hs.
    rewrite H in Hs; destruct Hs as [_ [Hk _]].
    rewrite (IH _ _ _ _ _ H). unfold runLength.
    replace (k - fb)%nat with (S (k - S fb)) by lia.
    cbn [seq fold_right]; rewrite Eb; change (default [] (Some w)) with w; lia.
  - injection H as <- _ <-. unfold runLength; rewrite Nat.sub_diag; cbn; lia.
Qed.

(** C2 (confirmed).  One iteration of the outer loop, for the start
    position [fq], when it returns.  The inner loop is bounded by c, the
    number of body tokens equal to [queryWords[fq]] (their count, not their
    positions).  At counter j the run length is also j, so
    [queryWords[fq + j]] is compared with [bodyWords[j + j]]: the body is
    indexed by counter plus run length.  Either a mismatch at some counter
    k < c breaks the scan, after k successful comparisons, and only then are
    the two maxima updated, with the run length k and the accumulated length
    of the body tokens read; or all c comparisons succeed, the range is
    exhausted and the maxima are left unchanged. *)
Theorem consecutive_inner_scan (q b : list jstr) (fq most longest most' longest' : nat) :
  let c := length (matchIndexes b (q !! fq)) in
  consecutiveStep q b (most, longest) fq = Ok (most', longest') ->
  c = length (List.filter (fun w => bool_decide (Some w = q !! fq)) b) /\
  ((exists k, (k < c)%nat /\
      (forall j, (j < k)%nat ->
         q !! (fq + j)%nat = b !! (j + j)%nat /\ b !! (j + j)%nat <> None) /\
      q !! (fq + k)%nat <> b !! (k + k)%nat /\
      most' = Nat.max most k /\ longest' = Nat.max longest (runLength b 0 k))
   \/
   ((forall j, (j < c)%nat -> q !! (fq + j)%nat = b !! (j + j)%nat) /\
    most' = most /\ longest' = longest)).
Proof.
  intros c H. split; [apply matchIndexes_count|].
  pose proof (innerScan_shape q b fq c 0 0) as Hs.
  pose proof (innerScan_break_read q b fq c 0 0) as Hr.
  pose proof (innerScan_break_len q b fq c 0 0) as Hl.
  change (consecutiveStep q b (most, longest) fq) with
    (match innerScan q b fq 0 c 0 0 with
     | ScanBreak _ cw cs => Ok (Nat.max most cw, Nat.max longest cs)
     | ScanDone _ _ => Ok (most, longest)
     | ScanCrash => Err (A := nat * nat) ErrUndefinedLength
     end) in H.
  destruct (innerScan q b fq 0 c 0 0) as [k cw cs|cw cs|]; [| |discriminate].
  - injection H as <- <-. destruct Hs as [-> [Hk [Heq Hne]]].
    left; exists k. split; [lia|]. split.
    { intros j Hj; split; [apply Heq; lia | apply (Hr _ _ _ eq_refl); lia]. }
    split; [exact Hne|]. split; [reflexivity|].
    rewrite (Hl _ _ _ eq_refl); reflexivity.
  - injection H as <- <-. destruct Hs as [_ Heq]. right.
    split; [intros j Hj; apply Heq; lia | split; reflexivity].
Qed.

Lemma consecutive_inner_scan_witness :
  consecutiveStep [s "a"; s "b"] [s "a"; s "a"; s "x"] (0, 0)%nat 0 = Ok (1, 1)%nat /\
  length (matchIndexes [s "a"; s "a"; s "x"] ([s "a"; s "b"] !! 0%nat)) =
    length (List.filter (fun w => bool_decide (Some w = [s "a"; s "b"] !! 0%nat))
              [s "a"; s "a"; s "x"]) /\
  ((exists k, (k < length (matchIndexes [s "a"; s "a"; s "x"] ([s "a"; s "b"] !! 0%nat)))%nat /\
      (forall j, (j < k)%nat ->
         [s "a"; s "b"] !! (0 + j)%nat = [s "a"; s "a"; s "x"] !! (j + j)%nat /\
         [s "a"; s "a"; s "x"] !! (j + j)%nat <> None) /\
      [s "a"; s "b"] !! (0 + k)%nat <> [s "a"; s "a"; s "x"] !! (k + k)%nat /\
      1%nat = Nat.max 0 k /\ 1%nat = Nat.max 0 (runLength [s "a"; s "a"; s "x"] 0 k))
   \/
   ((forall j, (j < length (matchIndexes [s "a"; s "a"; s "x"] ([s "a"; s "b"] !! 0%nat)))%nat ->
      [s "a"; s "b"] !! (0 + j)%nat = [s "a"; s "a"; s "x"] !! (j + j)%nat) /\
    1%nat = 0%nat /\ 1%nat = 0%nat)).
Proof.
  assert (H : consecutiveStep [s "a"; s "b"] [s "a"; s "a"; s "x"] (0, 0)%nat 0 = Ok (1, 1)%nat)
    by (vm_compute; reflexivity).
  split; [exact H | exact (consecutive_inner_scan _ _ 0 0 0 1 1 H)].
Defined.

(** C1 (code_bug).  Query "a" (no pattern syntax), body "a a", default
    options except word-only tokenization: query tokens ["a"], body tokens
    ["a"; "a"].  The scan for "a" matches at counter 0, then at counter 1
    compares [queryWords[1]] with [bodyWords[2]], both [undefined], finds
    them equal and reads [bodyWords[2].length]: [search] throws. *)
Lemma search_word_only_throws :
  hasRegexSyntax (s "a") = false /\
  getWords (getConfiguredText (s "a") false true true) false true = [s "a"] /\
  getWords (getConfiguredText (s "a a") false true true) false true = [s "a"; s "a"] /\
  innerScan [s "a"] [s "a"; s "a"] 0 0 2 0 0 = ScanCrash /\
  search literalEngine wordOnly (s "a") (s "a a") = Err ErrUndefinedLength.
Proof. vm_compute. repeat split; reflexivity. Qed.

(** ** Aggregator *)

Lemma bind_in {A B} (m : M A) (k : A -> M B) (x : scorer) :
  In x (fst (bindM m k)) -> In x (fst m) \/ exists a, In x (fst (k a)).
Proof.
  destruct m as [calls [a|e]]; cbn [bindM]; [|left; exact H].
  destruct (k a) as [calls' r] eqn:E; cbn [fst]; intros H.
  apply in_app_or in H as [H|H]; [left; exact H|].
  right; exists a; rewrite E; exact H.
Qed.

Lemma bind_ok {A B} (m : M A) (k : A -> M B) (v : B) :
  snd (bindM m k) = Ok v -> exists a, snd m = Ok a /\ snd (k a) = Ok v.
Proof.
  destruct m as [calls [a|e]]; cbn [bindM]; [|discriminate].
  destruct (k a) as [calls' r] eqn:E; cbn [snd]; intros H.
  exists a; rewrite E; split; [reflexivity | exact H].
Qed.

(** One guarded strategy of [search] calls at most its own scorer, and only
    when its guard holds. *)
Lemma step_in {A} (g : bool) (f : scorer) (r : res A) (k : A -> M Q) (d : Q) (x : scorer) :
  (forall a, fst (k a) = []) ->
  In x (fst (if g then bindM (invoke f r) k else ret d)) -> x = f /\ g = true.
Proof.
  intros Hk; destruct g; [|intros []].
  intros H; apply bind_in in H as [[H|[]]|[a H]]; [split; auto|].
  rewrite Hk in H; destruct H.
Qed.

Lemma Q_of_nat_nonneg (n : nat) : 0 <= Q_of_nat n.
Proof. unfold Q_of_nat, Qle; simpl; lia. Qed.

Lemma getCustomWordMultiplier_nonneg (w : jstr) : 0 <= getCustomWordMultiplier w.
Proof.
  unfold getCustomWordMultiplier.
  destruct (_ && _); [discriminate|]. destruct (existsb _ _); discriminate.
Qed.

(** C6 (corrected, counterexample).  With [consecutiveWordMatchPoints] 0 and
    the sequence weights non-zero, the consecutive-word strategy has a zero
    governing weight, yet its scorer is called. *)
Lemma consecutive_scorer_called_with_zero_points :
  Qeq_bool (consecutiveWordMatchPoints noConsecutiveWordPoints) 0 = true /\
  In CallConsecutiveWordSequence
    (invokedScorers literalEngine noConsecutiveWordPoints (s "a") (s "a")).
Proof. split; [reflexivity|]. vm_compute. right; right; right; right; left; reflexivity. Qed.

Lemma In_bind_l {A B} (m : M A) (k : A -> M B) (x : scorer) :
  In x (fst m) -> In x (fst (bindM m k)).
Proof.
  destruct m as [calls [a|e]]; cbn [bindM]; [|intros H; exact H].
  destruct (k a) as [calls' r]; cbn [fst]; intros H; apply in_or_app; left; exact H.
Qed.

Lemma In_bind_ok {A B} (m : M A) (k : A -> M B) (x : scorer) :
  (exists a, snd m = Ok a) -> (forall a, In x (fst (k a))) -> In x (fst (bindM m k)).
Proof.
  intros [a Ha] Hk; destruct m as [calls r]; cbn [snd] in Ha; subst r; cbn [bindM].
  specialize (Hk a); destruct (k a) as [calls' r]; cbn [fst] in *.
  apply in_or_app; right; exact Hk.
Qed.

(** A guarded step whose guard holds calls its scorer. *)
Lemma step_called {A B} (g : bool) (f : scorer) (r : res A) (k : A -> M B) (d : B) :
  g = true -> In f (fst (if g then bindM (invoke f r) k else ret d)).
Proof. intros ->; apply In_bind_l; left; reflexivity. Qed.

(** A guarded step returns when its scorer returns (or is skipped). *)
Lemma step_returns {A} (g : bool) (f : scorer) (r : res A) (k : A -> M Q) (d : Q) :
  (g = true -> exists a, r = Ok a) -> (forall a, exists v, snd (k a) = Ok v) ->
  exists v, snd (if g then bindM (invoke f r) k else ret d) = Ok v.
Proof.
  intros Hr Hk; destruct g; [|eexists; reflexivity].
  destruct (Hr eq_refl) as [a ->]; cbn [bindM invoke].
  destruct (Hk a) as [v Hv]; destruct (k a) as [calls' r']; cbn [snd] in *; eauto.
Qed.

(** C6 (corrected).  When all six point weights are 0, [search] calls no
    scorer and returns exactly 0, for every query, body and regular-expression
    engine.  In general a scorer is called exactly when its guard holds,
    unless an earlier step has thrown; the only earlier step that can throw
    is the exact-containing one, when its regular expression cannot be built
    or run.  The exact matchers need a non-zero point weight, each frequency
    scorer a non-zero point weight and a non-zero multiplier, and the
    consecutive scorer, shared by the consecutive-word and the
    consecutive-sequence strategies, is skipped only when both strategies
    have a zero point weight or a zero multiplier. *)
Theorem search_zero_weights :
  (forall (engine : jstr -> jstr -> res nat) (o : SearchOptions) (query body : jstr),
     allPointWeightsZero o = true -> searchRun engine o query body = ([], Ok 0)) /\
  (forall (engine : jstr -> jstr -> res nat) (o : SearchOptions) (query body : jstr)
     (f : scorer),
     In f (invokedScorers engine o query body) -> guardOf o f = true) /\
  (forall (engine : jstr -> jstr -> res nat) (o : SearchOptions) (query body : jstr)
     (f : scorer),
     guardOf o f = true ->
     (f = CallExactMatch \/ f = CallExactContaining \/ containingOk engine o query body) ->
     In f (invokedScorers engine o query body)).
Proof.
  split; [|split].
  - intros engine o query body H; unfold allPointWeightsZero in H.
    repeat (apply andb_prop in H as [H ?]).
    unfold searchRun, nonZero.
    repeat match goal with Hz : Qeq_bool _ 0 = true |- _ => rewrite Hz; clear Hz end.
    reflexivity.
  - intros engine o query body f H; unfold invokedScorers, searchRun in H; cbv zeta in H.
    do 4 (apply bind_in in H as [H|[? H]];
          [apply step_in in H as [-> Hg]; [exact Hg | intros ?; reflexivity] |]).
    apply bind_in in H as [H|[? H]];
      [apply step_in in H as [-> Hg]; [exact Hg | intros [? ?]; reflexivity] |].
    destruct H.
  - intros engine o query body f Hg Hf.
    unfold invokedScorers, searchRun, getExactContainingMatchScore; cbv zeta.
    assert (S1 : forall (g : bool) (d : Q) (e : nat),
               exists v : Q, snd (if g then bindM (invoke CallExactMatch (Ok e))
                                          (fun e => ret (d + exactMatchPoints o * Q_of_nat e))
                              else ret d) = Ok v)
      by (intros; apply step_returns; [eauto | intros; eexists; reflexivity]).
    destruct f; cbn [guardOf] in Hg.
    + apply In_bind_l, step_called; exact Hg.
    + apply In_bind_ok; [apply S1|intros a1].
      apply In_bind_l, step_called; exact Hg.
    + destruct Hf as [Hf|[Hf|Hc]]; try discriminate.
      apply In_bind_ok; [apply S1|intros a1].
      apply In_bind_ok;
        [apply step_returns; [destruct Hc as [Hc|Hc]; [congruence|intros _; exact Hc]
                             | intros; eexists; reflexivity] | intros a2].
      apply In_bind_l, step_called; exact Hg.
    + destruct Hf as [Hf|[Hf|Hc]]; try discriminate.
      apply In_bind_ok; [apply S1|intros a1].
      apply In_bind_ok;
        [apply step_returns; [destruct Hc as [Hc|Hc]; [congruence|intros _; exact Hc]
                             | intros; eexists; reflexivity] | intros a2].
      apply In_bind_ok;
        [apply step_returns; [eauto | intros; eexists; reflexivity] | intros a3].
      apply In_bind_l, step_called; exact Hg.
    + destruct Hf as [Hf|[Hf|Hc]]; try discriminate.
      apply In_bind_ok; [apply S1|intros a1].
      apply In_bind_ok;
        [apply step_returns; [destruct Hc as [Hc|Hc]; [congruence|intros _; exact Hc]
                             | intros; eexists; reflexivity] | intros a2].
      apply In_bind_ok;
        [apply step_returns; [eauto | intros; eexists; reflexivity] | intros a3].
      apply In_bind_ok;
        [apply step_returns; [eauto | intros; eexists; reflexivity] | intros a4].
      apply In_bind_l, step_called; exact Hg.
Qed.

Lemma search_zero_weights_witness :
  searchRun literalEngine zeroPoints (s "quick fox") (s "the quick brown fox") = ([], Ok 0) /\
  In CallConsecutiveWordSequence
    (invokedScorers literalEngine defaultSearchOptions (s "quick fox") (s "the quick brown fox")).
Proof.
  split; [apply (proj1 search_zero_weights); reflexivity|].
  apply (proj2 (proj2 search_zero_weights)); [reflexivity|].
  right; right; right; exists 0%nat; vm_compute; reflexivity.
Defined.

(** ** Sign of the binary64 score *)

Module DoubleFacts.
Import Double.

Lemma notNegative_ltZero (x : number) : ltZero x = false <-> notNegative x.
Proof.
  destruct x as [sx|sx| |sx mx ex]; try destruct sx; cbn; split; intros H;
    solve [exact I | reflexivity | discriminate | contradiction].
Qed.

Lemma binary_round_aux_notNegative (mx ex : Z) (lx : location) :
  notNegative (binary_round_aux prec emax false mx ex lx).
Proof.
  unfold binary_round_aux.
  destruct (shr_fexp prec emax mx ex lx) as [mrs' e'].
  destruct (shr_fexp prec emax _ e' loc_Exact) as [mrs'' e''].
  destruct (shr_m mrs''); [exact I| |exact I].
  destruct (Z.leb e'' (emax - prec)); exact I.
Qed.

Lemma binary_normalize_notNegative (m e : Z) :
  (0 <= m)%Z -> notNegative (binary_normalize prec emax m e false).
Proof.
  intros Hm; destruct m as [|p|p]; [exact I| |lia].
  unfold binary_normalize, binary_round.
  destruct (shl_align _ _ _) as [mz ez]; apply binary_round_aux_notNegative.
Qed.

Lemma add_notNegative (x y : number) :
  notNegative x -> notNegative y -> notNegative (add x y).
Proof.
  intros Hx Hy; unfold add.
  destruct x as [sx|sx| |sx mx ex], y as [sy|sy| |sy my ey];
    try destruct sx; try destruct sy; cbn [notNegative] in *; try contradiction;
    try exact I.
  cbn [SFadd cond_Zopp]. apply binary_normalize_notNegative; lia.
Qed.

Lemma mul_notNegative (x y : number) :
  notNegative x -> notNegative y -> notNegative (mul x y).
Proof.
  intros Hx Hy; unfold mul.
  destruct x as [sx|sx| |sx mx ex], y as [sy|sy| |sy my ey];
    try destruct sx; try destruct sy; cbn [notNegative] in *; try contradiction;
    try exact I.
  cbn [SFmul xorb]. apply binary_round_aux_notNegative.
Qed.

Lemma of_nat_notNegative (n : nat) : notNegative (of_nat n).
Proof. apply binary_normalize_notNegative; lia. Qed.

Lemma getCustomWordMultiplier_notNegative (w : jstr) :
  notNegative (getCustomWordMultiplier w).
Proof.
  unfold getCustomWordMultiplier.
  destruct (_ && _); [vm_compute; exact I|].
  destruct (existsb _ _); vm_compute; exact I.
Qed.

Lemma fold_add_notNegative {A} (h : A -> number) (l : list A) (acc : number) :
  notNegative acc -> (forall x, notNegative (h x)) ->
  notNegative (fold_left (fun sc x => add sc (h x)) l acc).
Proof.
  revert acc; induction l as [|x l IH]; intros acc Hacc Hh; [exact Hacc|].
  cbn [fold_left]; apply IH; [apply add_notNegative; auto | exact Hh].
Qed.

Lemma step_notNegative {A} (g : bool) (f : scorer) (r : res A) (k : A -> M number)
    (d v : number) :
  notNegative d -> (forall a v', r = Ok a -> snd (k a) = Ok v' -> notNegative v') ->
  snd (if g then bindM (invoke f r) k else ret d) = Ok v -> notNegative v.
Proof.
  intros Hd Hk; destruct g.
  - intros H; apply bind_ok in H as [a [Ha H]]. exact (Hk a v Ha H).
  - intros H; injection H as <-; exact Hd.
Qed.

Lemma ret_ok {A} (a v : A) : snd (ret a) = Ok v -> v = a.
Proof. intros H; injection H as <-; reflexivity. Qed.

End DoubleFacts.

(** C7 (corrected, counterexample).  In binary64 the score can be NaN,
    which is not [>= 0], although no option is negative.  Defaults, except
    consecutiveWordSequenceMatchPoints 0 and
    consecutiveWordSequenceLengthMultiplier [Number.MAX_VALUE]; query
    "ab x", body "ab y ab".  The scan for "ab" breaks with
    longestConsecutiveWordSequence 2, so the sequence score is
    [2 * MAX_VALUE = Infinity]; the scorer still runs for the
    consecutive-word strategy, and [0 * Infinity] is NaN. *)
Lemma search_nan_from_overflow :
  Double.optionsNotNegative Double.maxSequenceMultiplier = true /\
  Double.getConsecutiveWordSequenceMatchScore [s "ab"; s " "; s "x"]
    [s "ab"; s " "; s "y"; s " "; s "ab"] (Double.of_nat 2) Double.maxValue
  = Ok (Double.of_nat 2, S754_infinity false) /\
  Double.search literalEngine Double.maxSequenceMultiplier (s "ab x") (s "ab y ab")
  = Ok S754_nan /\
  SFleb Double.zero S754_nan = false.
Proof. vm_compute. repeat split; reflexivity. Qed.

(** C7 (corrected).  With binary64 numbers: when no numeric option is
    negative, a value returned by [search] is never negative ([v < 0] is
    false), for every query, body and regular-expression engine.  It need not
    be [>= 0]: it is NaN when a product overflows to Infinity and is then
    multiplied by a zero weight. *)
Theorem search_never_negative (engine : jstr -> jstr -> res nat) (o : Double.SearchOptions)
    (query body : jstr) (v : Double.number) :
  Double.optionsNotNegative o = true -> Double.search engine o query body = Ok v ->
  Double.ltZero v = false.
Proof.
  intros Ho H; apply DoubleFacts.notNegative_ltZero.
  unfold Double.optionsNotNegative in Ho.
  repeat (apply andb_prop in Ho as [Ho ?]).
  repeat match goal with Hq : negb (Double.ltZero _) = true |- _ =>
    apply negb_true_iff, DoubleFacts.notNegative_ltZero in Hq end.
  unfold Double.search, Double.searchRun in H; cbv zeta in H.
  pose proof DoubleFacts.add_notNegative as Hadd.
  pose proof DoubleFacts.mul_notNegative as Hmul.
  pose proof DoubleFacts.of_nat_notNegative as Hnat.
  assert (Hz0 : Double.notNegative Double.zero) by exact I.
  apply bind_ok in H as [a1 [Hs1 H]].
  assert (P1 : Double.notNegative a1).
  { eapply DoubleFacts.step_notNegative; [exact Hz0| |exact Hs1].
    intros x0 v' _ Hv; apply DoubleFacts.ret_ok in Hv; subst v'. apply Hadd; [exact Hz0|]. apply Hmul; [exact Ho|]. apply Hnat. }
  apply bind_ok in H as [a2 [Hs2 H]].
  assert (P2 : Double.notNegative a2).
  { eapply DoubleFacts.step_notNegative; [exact P1| |exact Hs2].
    intros x0 v' _ Hv; apply DoubleFacts.ret_ok in Hv; subst v'. apply Hadd; [exact P1|]. apply Hmul; [assumption|]. apply Hnat. }
  apply bind_ok in H as [a3 [Hs3 H]].
  assert (P3 : Double.notNegative a3).
  { eapply DoubleFacts.step_notNegative; [exact P2| |exact Hs3].
    intros x0 v' Hx Hv; apply DoubleFacts.ret_ok in Hv; subst v'; injection Hx as <-.
    apply Hadd; [exact P2|]; apply Hmul; [assumption|].
    unfold Double.getSingleWordMatchScore; apply DoubleFacts.fold_add_notNegative; [exact I|].
    intros w; repeat apply Hmul; auto using DoubleFacts.getCustomWordMultiplier_notNegative. }
  apply bind_ok in H as [a4 [Hs4 H]].
  assert (P4 : Double.notNegative a4).
  { eapply DoubleFacts.step_notNegative; [exact P3| |exact Hs4].
    intros x0 v' Hx Hv; apply DoubleFacts.ret_ok in Hv; subst v'; injection Hx as <-.
    apply Hadd; [exact P3|]; apply Hmul; [assumption|].
    unfold Double.getUniqueSingleWordMatchScore; apply DoubleFacts.fold_add_notNegative;
      [exact I|].
    intros w; repeat apply Hmul; auto using DoubleFacts.getCustomWordMultiplier_notNegative. }
  apply bind_ok in H as [a5 [Hs5 H]].
  assert (P5 : Double.notNegative a5).
  { eapply DoubleFacts.step_notNegative; [exact P4| |exact Hs5].
    intros [x y] v' Hx Hv; apply DoubleFacts.ret_ok in Hv; subst v'.
    unfold Double.getConsecutiveWordSequenceMatchScore in Hx.
    destruct (consecutiveLoop _ _ _ _) as [[m l]|e]; [|discriminate].
    injection Hx as <- <-. auto. }
  injection H as <-; exact P5.
Qed.

Lemma search_never_negative_witness :
  Double.ltZero
    (match Double.search literalEngine Double.defaultSearchOptions (s "quick fox")
             (s "The quick brown fox jumps over the lazy dog") with
     | Ok v => v | Err _ => Double.zero end) = false.
Proof.
  apply (search_never_negative literalEngine Double.defaultSearchOptions (s "quick fox")
           (s "The quick brown fox jumps over the lazy dog")); vm_compute; reflexivity.
Defined.

(** ** Option merge *)

(** C5 (corrected, counterexample).  An override that has the key
    [exactMatchPoints] with value [undefined] (allowed by
    [Partial<SearchOptions>]) replaces the default 70 by [undefined]. *)
Lemma merged_undefined_overrides :
  destructure defaultSearchOptionsObject "exactMatchPoints" = JNumber 70 /\
  destructure (mergedOptions (Some {[ "exactMatchPoints"%string := JUndefined ]}))
    "exactMatchPoints" = JUndefined.
Proof. split; reflexivity. Qed.

(** C5 (corrected).  The effective value of every key is the override's
    value when the override has that key, whatever the value (an explicit
    [undefined] included), and the default value otherwise (also when no
    override is given); the values are not validated or transformed. *)
Theorem merged_options_lookup (options : option (gmap string jsval)) (key : string) :
  destructure (mergedOptions options) key =
  match options with
  | Some override =>
      match override !! key with
      | Some v => v
      | None => destructure defaultSearchOptionsObject key
      end
  | None => destructure defaultSearchOptionsObject key
  end.
Proof.
  unfold destructure, mergedOptions, objectSpread.
  rewrite (right_id_L ∅ (∪)).
  destruct options as [override|]; [|reflexivity].
  destruct (override !! key) as [v|] eqn:E.
  - rewrite (lookup_union_l' override defaultSearchOptionsObject key) by (rewrite E; eauto).
    rewrite E; reflexivity.
  - rewrite lookup_union_r by exact E; reflexivity.
Qed.

(** ** Further properties of the tokenizer *)

Lemma splitGo_concat (t cur : jstr) (inDelim : bool) :
  concat (splitGo cur inDelim t) = rev cur ++ t.
Proof.
  revert cur inDelim; induction t as [|c t IH]; intros cur inDelim; cbn [splitGo].
  - destruct inDelim; simpl; rewrite ?app_nil_r; reflexivity.
  - destruct (is_word c), inDelim; cbn [concat]; rewrite IH; simpl;
      rewrite <- ?app_assoc; reflexivity.
Qed.

(** In split mode the tokens, joined back together, give the text again:
    [text.split(/(\W+)/).join("") === text]. *)
Theorem splitNonWord_concat (text : jstr) : concat (splitNonWord text) = text.
Proof. unfold splitNonWord; rewrite splitGo_concat; reflexivity. Qed.

Lemma alternating_cons (b : bool) (w : jstr) (r : list jstr) :
  tokKind b w -> alternating (negb b) r -> alternating b (w :: r).
Proof. intros Hw Hr; simpl; split; [exact Hw|]; destruct r; [contradiction | exact Hr]. Qed.

Lemma rev_not_nil {A} (l : list A) : l <> [] -> rev l <> [].
Proof.
  intros H E; apply H; apply (f_equal (@length A)) in E; rewrite length_rev in E.
  destruct l; [reflexivity | discriminate].
Qed.

Lemma splitGo_alternating (t : jstr) : forall cur : jstr,
  (Forall (fun c => is_word c = true) cur -> alternating true (splitGo cur false t)) /\
  (cur <> [] -> Forall (fun c => is_word c = false) cur ->
   alternating false (splitGo cur true t)).
Proof.
  induction t as [|c t IH]; intros cur; cbn [splitGo].
  - split.
    + intros Hc; simpl; split; [apply Forall_rev; exact Hc | reflexivity].
    + intros Hne Hc; simpl; split; [split; [apply rev_not_nil; exact Hne | apply Forall_rev; exact Hc]|].
      split; [constructor | reflexivity].
  - destruct (is_word c) eqn:Ec; split.
    + intros Hc; apply IH; constructor; assumption.
    + intros Hne Hc; apply alternating_cons.
      * split; [apply rev_not_nil; exact Hne | apply Forall_rev; exact Hc].
      * apply IH; constructor; [exact Ec | constructor].
    + intros Hc; apply alternating_cons; [apply Forall_rev; exact Hc|].
      apply IH; [discriminate | constructor; [exact Ec | constructor]].
    + intros Hne Hc; apply IH; [discriminate | constructor; assumption].
Qed.

Lemma tokKind_excl (b : bool) (w : jstr) : tokKind b w -> tokKind (negb b) w -> False.
Proof.
  destruct b; simpl.
  - intros Hw [Hne Hn]. destruct w as [|c w]; [contradiction|].
    inversion Hw; inversion Hn; congruence.
  - intros [Hne Hn] Hw. destruct w as [|c w]; [contradiction|].
    inversion Hw; inversion Hn; congruence.
Qed.

Lemma alternating_adjDistinct (l : list jstr) : forall b, alternating b l -> adjDistinct l.
Proof.
  induction l as [|a r IH]; intros b H; [exact I|].
  destruct H as [Ha Hr]. destruct r as [|a' r']; [exact I|].
  split; [|exact (IH _ Hr)].
  intros ->. destruct Hr as [Ha' _]. exact (tokKind_excl b a' Ha Ha').
Qed.

Lemma splitNonWord_adjDistinct (text : jstr) : adjDistinct (splitNonWord text).
Proof.
  apply (alternating_adjDistinct _ true).
  apply (proj1 (splitGo_alternating text [])); constructor.
Qed.

(** In split mode the tokens alternate between runs of word characters
    (possibly empty) and non-empty runs of non-word characters, starting and
    ending with a word run; in particular the list is never empty. *)
Theorem splitNonWord_alternating (text : jstr) : alternating true (splitNonWord text).
Proof. apply (proj1 (splitGo_alternating text [])); constructor. Qed.

Lemma count_adjDistinct (w : jstr) (l : list jstr) :
  adjDistinct l ->
  (2 * length (List.filter (fun x => bool_decide (Some x = Some w)) l) <= length l + 1)%nat /\
  (match l with [] => True | a :: _ => a <> w end ->
   2 * length (List.filter (fun x => bool_decide (Some x = Some w)) l) <= length l)%nat.
Proof.
  induction l as [|a r IH]; intros Hl; [simpl; lia|].
  assert (Hr : adjDistinct r) by (destruct r; [exact I | exact (proj2 Hl)]).
  destruct (IH Hr) as [IH1 IH2].
  cbn [List.filter length].
  destruct (bool_decide (Some a = Some w)) eqn:E.
  - apply bool_decide_eq_true_1 in E; injection E as ->.
    assert (Hh : match r with [] => True | b :: _ => b <> w end)
      by (destruct r; [exact I | intros ->; apply (proj1 Hl); reflexivity]).
    specialize (IH2 Hh); cbn [length]. split; [lia | intros H; contradiction H; reflexivity].
  - split; lia.
Qed.

Lemma count_none (l : list jstr) :
  length (List.filter (fun x => bool_decide (Some x = None)) l) = 0%nat.
Proof. induction l; [reflexivity|]; cbn [List.filter]; rewrite bool_decide_eq_false_2 by discriminate; exact IHl. Qed.

Lemma consecutiveStep_adjDistinct (q b : list jstr) (acc : nat * nat) (fq : nat) :
  adjDistinct b -> exists acc', consecutiveStep q b acc fq = Ok acc'.
Proof.
  intros Hb; destruct acc as [m l].
  pose proof (innerScan_shape q b fq (length (matchIndexes b (q !! fq))) 0 0) as H.
  unfold consecutiveStep; cbv zeta.
  destruct (innerScan q b fq 0 (length (matchIndexes b (q !! fq))) 0 0); [eauto | eauto|].
  exfalso. destruct H as [k [Hk [_ Hbk]]].
  apply lookup_ge_None in Hbk. rewrite matchIndexes_count in Hk.
  destruct (q !! fq) as [w|].
  - destruct (count_adjDistinct w b Hb) as [Hc _]. lia.
  - rewrite count_none in Hk; lia.
Qed.

Lemma consecutiveLoop_adjDistinct (q b : list jstr) (idx : list nat) (acc : nat * nat) :
  adjDistinct b -> exists r, consecutiveLoop q b idx acc = Ok r.
Proof.
  intros Hb; revert acc; induction idx as [|i idx IH]; intros acc; [eauto|].
  cbn [consecutiveLoop]. destruct (consecutiveStep_adjDistinct q b acc i Hb) as [acc' ->].
  apply IH.
Qed.

Lemma consecutive_split_ok (q : list jstr) (body : jstr) (m1 m2 : Q) :
  exists r, getConsecutiveWordSequenceMatchScore q (splitNonWord body) m1 m2 = Ok r.
Proof.
  unfold getConsecutiveWordSequenceMatchScore.
  destruct (consecutiveLoop_adjDistinct q (splitNonWord body) (seq 0 (length q)) (0, 0)%nat
              (splitNonWord_adjDistinct body)) as [[x y] ->].
  eauto.
Qed.

(** In split mode no two neighbouring body tokens are equal, so a token
    occurs at most (n+1)/2 times among n body tokens, and the consecutive
    scorer's reads of [bodyWords] stay in range: whatever the query tokens,
    the scorer never throws on split-mode body tokens. *)
Theorem consecutive_split_mode_never_throws (queryWords : list jstr) (body : jstr)
    (m1 m2 : Q) :
  exists r, getConsecutiveWordSequenceMatchScore queryWords (splitNonWord body) m1 m2 = Ok r.
Proof. apply consecutive_split_ok. Qed.

(** ** Further properties of [search] *)

Lemma bind_total {A B} (m : M A) (k : A -> M B) :
  (exists a, snd m = Ok a) -> (forall a, exists v, snd (k a) = Ok v) ->
  exists v, snd (bindM m k) = Ok v.
Proof.
  intros [a Ha] Hk; destruct m as [calls r]; cbn [snd] in Ha; subst r; cbn [bindM].
  destruct (Hk a) as [v Hv]; destruct (k a) as [calls' r]; cbn [snd] in *; eauto.
Qed.

Lemma step_total {A} (g : bool) (f : scorer) (r : res A) (k : A -> M Q) (d : Q) :
  (exists a, r = Ok a) -> (forall a, exists v, snd (k a) = Ok v) ->
  exists v, snd (if g then bindM (invoke f r) k else ret d) = Ok v.
Proof.
  intros Hr Hk; destruct g; [apply bind_total; [exact Hr | exact Hk] | eexists; reflexivity].
Qed.

Ltac ret_total := intros; eexists; reflexivity.

(** When the words are split on non-word characters
    ([shouldMatchWhitespaceAndPunctuation] set, as in the defaults) and the
    regular-expression engine does not throw, [search] returns a number:
    the only remaining source of an exception, the consecutive scorer, cannot
    throw on split-mode tokens. *)
Theorem search_split_mode_total (engine : jstr -> jstr -> res nat) (o : SearchOptions)
    (query body : jstr) :
  shouldMatchWhitespaceAndPunctuation o = true ->
  (forall p t, exists n, engine p t = Ok n) ->
  exists v, search engine o query body = Ok v.
Proof.
  intros Hsplit Heng.
  unfold search, searchRun, getExactContainingMatchScore; cbv zeta.
  rewrite Hsplit; cbn [getWords].
  apply bind_total; [apply step_total; [eauto | ret_total] | intros s1].
  apply bind_total; [apply step_total; [apply Heng | ret_total] | intros s2].
  apply bind_total; [apply step_total; [eauto | ret_total] | intros s3].
  apply bind_total; [apply step_total; [eauto | ret_total] | intros s4].
  apply bind_total; [apply step_total; [apply consecutive_split_ok | intros [x y]; ret_total]
                    | ret_total].
Qed.

Lemma search_split_mode_total_witness :
  exists v, search (fun p t => Ok (literalMatchCount p t)) defaultSearchOptions
              (s "a(b") (s "x a(b y") = Ok v.
Proof.
  apply search_split_mode_total; [reflexivity|].
  intros p t; exists (literalMatchCount p t); reflexivity.
Defined.

(** When the exact-containing strategy is on and building or running the
    regular expression from the normalized query throws, [search] throws
    the same error, whatever the other options. *)
Theorem search_propagates_regexp_error (engine : jstr -> jstr -> res nat) (o : SearchOptions)
    (query body : jstr) (e : searchError) :
  nonZero (exactContainingMatchPoints o) = true ->
  engine (getConfiguredText query (isCaseSensitive o) (shouldMatchPunctuation o)
            (shouldCollapseWhitespace o))
         (getConfiguredText body (isCaseSensitive o) (shouldMatchPunctuation o)
            (shouldCollapseWhitespace o)) = Err e ->
  search engine o query body = Err e.
Proof.
  intros Hg He.
  unfold search, searchRun, getExactContainingMatchScore; cbv zeta.
  rewrite Hg, He.
  destruct (nonZero (exactMatchPoints o)); reflexivity.
Qed.

Lemma search_propagates_regexp_error_witness :
  nonZero (exactContainingMatchPoints defaultSearchOptions) = true /\
  literalEngine (getConfiguredText (s "f(x") false true true)
                (getConfiguredText (s "f(x) = 1") false true true) = Err ErrRegExp /\
  search literalEngine defaultSearchOptions (s "f(x") (s "f(x) = 1") = Err ErrRegExp.
Proof.
  split; [reflexivity | split; [vm_compute; reflexivity|]].
  apply search_propagates_regexp_error; vm_compute; reflexivity.
Defined.

(** With [isCaseSensitive] off, [search] sees its arguments only through
    [toLocaleLowerCase]: two queries and two bodies that agree after
    lower-casing get the same result. *)
Theorem search_case_insensitive (engine : jstr -> jstr -> res nat) (o : SearchOptions)
    (q q' b b' : jstr) :
  isCaseSensitive o = false ->
  toLocaleLowerCase q = toLocaleLowerCase q' ->
  toLocaleLowerCase b = toLocaleLowerCase b' ->
  search engine o q b = search engine o q' b'.
Proof.
  intros Hc Hq Hb.
  unfold search, searchRun, getConfiguredText; cbv zeta.
  rewrite Hc; cbn [negb]. rewrite Hq, Hb. reflexivity.
Qed.

Lemma search_case_insensitive_witness :
  search literalEngine defaultSearchOptions (s "Quick Fox") (s "THE quick brown FOX") =
  search literalEngine defaultSearchOptions (s "quick fox") (s "the quick brown fox").
Proof.
  apply search_case_insensitive; vm_compute; reflexivity.
Defined.

(** ** Further properties of [getConfiguredText] *)

Lemma flushWs_pushWs (st : wsRun) (c : ascii) :
  (length (flushWs (pushWs st c)) <= length (flushWs st) + 1)%nat.
Proof. destruct st; simpl; lia. Qed.

Lemma collapseGo_length (t : jstr) : forall st,
  (length (collapseGo st t) <= length (flushWs st) + length t)%nat.
Proof.
  induction t as [|c t IH]; intros st; cbn [collapseGo length]; [lia|].
  destruct (is_ws c).
  - pose proof (IH (pushWs st c)); pose proof (flushWs_pushWs st c); lia.
  - rewrite length_app; cbn [length]. pose proof (IH NoRun); cbn [flushWs length] in *; lia.
Qed.

Lemma filter_length_le' {A} (f : A -> bool) (l : list A) :
  (length (List.filter f l) <= length l)%nat.
Proof. induction l; cbn [List.filter length]; [lia | destruct (f a); cbn [length]; lia]. Qed.

(** Apart from case folding, normalization never lengthens a string: the
    output is no longer than the text after [toLocaleLowerCase] (or the text
    itself when case-sensitive); replacing by a space keeps the length,
    deleting punctuation and collapsing whitespace runs shorten it. *)
Theorem getConfiguredText_length (text : jstr) (isCaseSensitive shouldMatchPunctuation
    shouldCollapseWhitespace : bool) :
  (length (getConfiguredText text isCaseSensitive shouldMatchPunctuation
             shouldCollapseWhitespace)
   <= length (if isCaseSensitive then text else toLocaleLowerCase text))%nat.
Proof.
  unfold getConfiguredText; cbv zeta.
  replace (if isCaseSensitive then text else toLocaleLowerCase text)
    with (if negb isCaseSensitive then toLocaleLowerCase text else text)
    by (destruct isCaseSensitive; reflexivity).
  set (t1 := if negb isCaseSensitive then toLocaleLowerCase text else text) in *.
  assert (H2 : (length (if negb shouldMatchPunctuation
                        then replaceDeleted (replaceToSpace t1) else t1) <= length t1)%nat).
  { destruct shouldMatchPunctuation; cbn [negb]; [lia|].
    unfold replaceDeleted, replaceToSpace.
    pose proof (filter_length_le' (fun c => negb (memChar c punctDeleted))
                  (map (fun c => if memChar c punctToSpace then " "%char else c) t1)).
    rewrite length_map in H; exact H. }
  set (t2 := if negb shouldMatchPunctuation then replaceDeleted (replaceToSpace t1) else t1)
    in *.
  destruct shouldCollapseWhitespace; [|lia].
  pose proof (collapseGo_length t2 NoRun); unfold collapseWhitespace; cbn [flushWs length] in *; lia.
Qed.

(** ** Word-only tokens *)

Lemma matchNonWsGo_concat (t cur : jstr) :
  concat (matchNonWsGo cur t) = rev cur ++ List.filter (fun c => negb (is_ws c)) t.
Proof.
  revert cur; induction t as [|c t IH]; intros cur; cbn [matchNonWsGo List.filter].
  - destruct cur; simpl; rewrite ?app_nil_r; reflexivity.
  - destruct (is_ws c); cbn [negb].
    + destruct cur as [|x cur']; [apply IH|].
      cbn [concat]; rewrite IH; simpl; rewrite ?app_nil_r; reflexivity.
    + rewrite IH; simpl; rewrite <- app_assoc; reflexivity.
Qed.

(** In word-only mode ([text.match(/\S+/g) || []]) the tokens are non-empty
    and free of whitespace, and joined together they give the text with its
    whitespace removed: they are exactly the maximal whitespace-free runs. *)
Theorem matchNonWs_tokens (text : jstr) :
  concat (matchNonWs text) = List.filter (fun c => negb (is_ws c)) text /\
  Forall (fun w => w <> [] /\ noWs w) (matchNonWs text).
Proof.
  split; [apply matchNonWsGo_concat | apply matchNonWsGo_tokens; constructor].
Qed.

(** ** Matches of a literal pattern *)

Lemma isPrefix_length (p t : jstr) : isPrefix p t = true -> (length p <= length t)%nat.
Proof.
  revert t; induction p as [|c p IH]; intros [|d t] H; cbn [isPrefix length] in *;
    try lia; try discriminate.
  apply andb_prop in H as [_ H]; specialize (IH t H); lia.
Qed.

Lemma findFrom_some (p t : jstr) (i j : nat) :
  findFrom p t i = Some j -> (i <= j)%nat /\ (j + length p <= length t)%nat.
Proof.
  unfold findFrom; intros H; apply find_some in H as [Hin Hp].
  apply in_seq in Hin. apply isPrefix_length in Hp; rewrite length_drop in Hp.
  destruct p as [|c p]; cbn [length] in *; lia.
Qed.

Lemma matchLoop_nonoverlap (p t : jstr) (fuel : nat) : p <> [] -> forall i,
  (matchLoop p t i fuel * length p <= length t - i)%nat.
Proof.
  intros Hp; induction fuel as [|fuel IH]; intros i; cbn [matchLoop]; [lia|].
  destruct (findFrom p t i) as [j|] eqn:E; [|lia].
  apply findFrom_some in E as [E1 E2].
  destruct p as [|c p']; [contradiction|].
  specialize (IH (j + length (c :: p'))%nat). cbn [Nat.mul]. lia.
Qed.

(** The literal matcher behind [body.match(new RegExp(query, "g"))] counts
    non-overlapping occurrences: for a non-empty query, the matches times
    the query length never exceed the body length. *)
Theorem literalMatchCount_nonoverlap (query body : jstr) :
  query <> [] -> (literalMatchCount query body * length query <= length body)%nat.
Proof.
  intros Hq; unfold literalMatchCount.
  pose proof (matchLoop_nonoverlap query body (S (S (length body))) Hq 0); lia.
Qed.

Lemma literalMatchCount_nonoverlap_witness :
  s "aa" <> [] /\ (literalMatchCount (s "aa") (s "aaaaa") * length (s "aa") <= length (s "aaaaa"))%nat.
Proof. split; [discriminate | apply literalMatchCount_nonoverlap; discriminate]. Defined.

(** ** Frequency scorers compared *)

Lemma fold_sum_le {A} (f g : A -> Q) (l : list A) (a a' : Q) :
  a <= a' -> (forall x, In x l -> f x <= g x) ->
  fold_left (fun sc x => sc + f x) l a <= fold_left (fun sc x => sc + g x) l a'.
Proof.
  revert a a'; induction l as [|x l IH]; intros a a' Ha Hfg; [exact Ha|].
  cbn [fold_left]; apply IH; [apply Qplus_le_compat; [exact Ha | apply Hfg; left; reflexivity]|].
  intros y Hy; apply Hfg; right; exact Hy.
Qed.

Lemma count_shared_pos (w : jstr) (b : list jstr) :
  existsb (jstr_eqb w) b = true ->
  (1 <= length (List.filter (fun bodyWord => jstr_eqb bodyWord w) b))%nat.
Proof.
  intros H; apply existsb_exists in H as [x [Hx Hwx]]; apply jstr_eqb_true in Hwx; subst x.
  assert (Hin : In w (List.filter (fun bodyWord => jstr_eqb bodyWord w) b))
    by (apply filter_In; split; [exact Hx | apply jstr_eqb_refl]).
  destruct (List.filter _ b); [contradiction | cbn [length]; lia].
Qed.

Lemma Q_of_nat_ge1 (n : nat) : (1 <= n)%nat -> 1 <= Q_of_nat n.
Proof. intros H; unfold Q_of_nat, Qle; simpl; lia. Qed.

(** Counting every body occurrence never gives less than counting each
    shared query token once: for a non-negative length multiplier the
    single-word score is at least the unique-single-word score. *)
Theorem unique_le_single (queryWords bodyWords : list jstr) (m : Q) :
  0 <= m ->
  getUniqueSingleWordMatchScore queryWords bodyWords m <=
  getSingleWordMatchScore queryWords bodyWords m.
Proof.
  intros Hm; unfold getUniqueSingleWordMatchScore, getSingleWordMatchScore.
  apply fold_sum_le; [apply Qle_refl|].
  intros w Hw; apply filter_In in Hw as [_ Hw].
  set (X := Q_of_nat (length w) * m * getCustomWordMultiplier w).
  assert (HX : 0 <= X)
    by (repeat apply Qmult_le_0_compat; auto using Q_of_nat_nonneg, getCustomWordMultiplier_nonneg).
  set (c := Q_of_nat (length (List.filter (fun bodyWord => jstr_eqb bodyWord w) bodyWords))).
  assert (Hc : 1 <= c) by (apply Q_of_nat_ge1, count_shared_pos, Hw).
  apply Qle_trans with (1 * X); [rewrite Qmult_1_l; apply Qle_refl|].
  apply Qle_trans with (c * X); [apply Qmult_le_compat_r; assumption|].
  apply Qle_lteq; right; unfold X; ring.
Qed.

Lemma unique_le_single_witness :
  0 <= 3 # 2 /\
  getUniqueSingleWordMatchScore [s "a"; s "b"] [s "a"; s "a"; s "c"] (3 # 2) <=
  getSingleWordMatchScore [s "a"; s "b"] [s "a"; s "a"; s "c"] (3 # 2).
Proof. split; [vm_compute; discriminate | apply unique_le_single; vm_compute; discriminate]. Defined.

Lemma existsb_perm {A} (f : A -> bool) (l l' : list A) :
  Permutation l l' -> existsb f l = existsb f l'.
Proof.
  induction 1; cbn [existsb]; try congruence.
  destruct (f x), (f y); reflexivity.
Qed.

Lemma filter_length_perm {A} (f : A -> bool) (l l' : list A) :
  Permutation l l' -> length (List.filter f l) = length (List.filter f l').
Proof.
  induction 1; cbn [List.filter]; try congruence.
  - destruct (f x); cbn [length]; congruence.
  - destruct (f x), (f y); reflexivity.
Qed.

Lemma fold_left_ext_in {A B} (f g : B -> A -> B) (l : list A) (acc : B) :
  (forall b x, In x l -> f b x = g b x) -> fold_left f l acc = fold_left g l acc.
Proof.
  revert acc; induction l as [|x l IH]; intros acc H; [reflexivity|].
  cbn [fold_left]; rewrite H by (left; reflexivity).
  apply IH; intros b y Hy; apply H; right; exact Hy.
Qed.

(** Both frequency scorers see the body as a bag of tokens: reordering the
    body tokens changes neither score. *)
Theorem frequency_scores_body_order (queryWords bodyWords bodyWords' : list jstr) (m : Q) :
  Permutation bodyWords bodyWords' ->
  getSingleWordMatchScore queryWords bodyWords m =
    getSingleWordMatchScore queryWords bodyWords' m /\
  getUniqueSingleWordMatchScore queryWords bodyWords m =
    getUniqueSingleWordMatchScore queryWords bodyWords' m.
Proof.
  intros Hp.
  assert (Hf : List.filter (fun w => existsb (jstr_eqb w) bodyWords) queryWords =
               List.filter (fun w => existsb (jstr_eqb w) bodyWords') queryWords).
  { apply filter_ext; intros w; apply existsb_perm; exact Hp. }
  unfold getSingleWordMatchScore, getUniqueSingleWordMatchScore; cbv zeta.
  rewrite Hf; split; [|reflexivity].
  apply fold_left_ext_in; intros sc w _.
  rewrite (filter_length_perm (fun bodyWord => jstr_eqb bodyWord w) _ _ Hp); reflexivity.
Qed.

Lemma frequency_scores_body_order_witness :
  Permutation [s "a"; s "b"; s "a"] [s "b"; s "a"; s "a"] /\
  getSingleWordMatchScore [s "a"] [s "a"; s "b"; s "a"] 1 =
    getSingleWordMatchScore [s "a"] [s "b"; s "a"; s "a"] 1 /\
  getUniqueSingleWordMatchScore [s "a"] [s "a"; s "b"; s "a"] 1 =
    getUniqueSingleWordMatchScore [s "a"] [s "b"; s "a"; s "a"] 1.
Proof.
  assert (Hp : Permutation [s "a"; s "b"; s "a"] [s "b"; s "a"; s "a"]) by constructor.
  split; [exact Hp | apply frequency_scores_body_order; exact Hp].
Defined.

(** ** Order of the scorer calls *)

Lemma bind_sublist {A B} (m : M A) (k : A -> M B) (L1 L2 : list scorer) :
  fst m `sublist_of` L1 -> (forall a, fst (k a) `sublist_of` L2) ->
  fst (bindM m k) `sublist_of` L1 ++ L2.
Proof.
  intros Hm Hk; destruct m as [calls [a|e]]; cbn [bindM fst] in *.
  - specialize (Hk a); destruct (k a) as [calls' r]; cbn [fst] in *.
    apply sublist_app; assumption.
  - apply sublist_inserts_r; exact Hm.
Qed.

Lemma step_sublist {A} (g : bool) (f : scorer) (r : res A) (k : A -> M Q) (d : Q) :
  (forall a, fst (k a) = []) ->
  fst (if g then bindM (invoke f r) k else ret d) `sublist_of` [f].
Proof.
  intros Hk; destruct g; [|apply sublist_nil_l].
  rewrite <- (app_nil_r [f]); apply bind_sublist; [reflexivity|].
  intros a; rewrite Hk; reflexivity.
Qed.

(** [search] calls each scorer at most once, and in the order of the source:
    exact match, exact containing match, single word, unique single word,
    consecutive word sequence. *)
Theorem invokedScorers_in_order (engine : jstr -> jstr -> res nat) (o : SearchOptions)
    (query body : jstr) :
  invokedScorers engine o query body `sublist_of`
    [CallExactMatch; CallExactContaining; CallSingleWord; CallUniqueSingleWord;
     CallConsecutiveWordSequence].
Proof.
  unfold invokedScorers, searchRun; cbv zeta.
  change [CallExactMatch; CallExactContaining; CallSingleWord; CallUniqueSingleWord;
          CallConsecutiveWordSequence]
    with ([CallExactMatch] ++ ([CallExactContaining] ++ ([CallSingleWord] ++
          ([CallUniqueSingleWord] ++ ([CallConsecutiveWordSequence] ++ []))))).
  apply bind_sublist; [apply step_sublist; reflexivity | intros a1].
  apply bind_sublist; [apply step_sublist; reflexivity | intros a2].
  apply bind_sublist; [apply step_sublist; reflexivity | intros a3].
  apply bind_sublist; [apply step_sublist; reflexivity | intros a4].
  apply bind_sublist; [apply step_sublist; intros [x y]; reflexivity | intros a5].
  reflexivity.
Qed.

(** ** Bound on the consecutive-word count *)


Lemma consecutiveStep_bound (q b : list jstr) (fq m l m' l' : nat) :
  consecutiveStep q b (m, l) fq = Ok (m', l') ->
  (m <= length q)%nat /\ (2 * m <= length b + 1)%nat ->
  (m' <= length q)%nat /\ (2 * m' <= length b + 1)%nat.
Proof.
  intros H [Hm1 Hm2].
  pose proof (innerScan_shape q b fq (length (matchIndexes b (q !! fq))) 0 0) as Hs.
  pose proof (innerScan_break_read q b fq (length (matchIndexes b (q !! fq))) 0 0) as Hr.
  unfold consecutiveStep in H; cbv zeta in H.
  destruct (innerScan q b fq 0 (length (matchIndexes b (q !! fq))) 0 0) as [k cw cs|cw cs|];
    [|injection H as <- <-; lia | discriminate].
  injection H as <- _.
  destruct Hs as [-> [_ [Heq _]]].
  destruct k as [|k]; [lia|].
  specialize (Hr _ _ _ eq_refl k ltac:(lia)).
  specialize (Heq k ltac:(lia)).
  assert (Hb : (k + k < length b)%nat)
    by (apply lookup_lt_is_Some; destruct (b !! (k + k)%nat); [eauto | contradiction]).
  assert (Hq : (fq + k < length q)%nat)
    by (apply lookup_lt_is_Some; rewrite Heq; destruct (b !! (k + k)%nat); [eauto | contradiction]).
  lia.
Qed.

Lemma consecutiveLoop_bound (q b : list jstr) (idx : list nat) : forall m l m' l',
  consecutiveLoop q b idx (m, l) = Ok (m', l') ->
  (m <= length q)%nat /\ (2 * m <= length b + 1)%nat ->
  (m' <= length q)%nat /\ (2 * m' <= length b + 1)%nat.
Proof.
  induction idx as [|i idx IH]; intros m l m' l' H Hm; cbn [consecutiveLoop] in H.
  - injection H as <- <-; exact Hm.
  - destruct (consecutiveStep q b (m, l) i) as [[m1 l1]|e] eqn:E; [|discriminate].
    apply (IH m1 l1 m' l' H). exact (consecutiveStep_bound q b i m l m1 l1 E Hm).
Qed.

(** The consecutive-word score is [mostConsecutiveWords] times its length
    multiplier, where [mostConsecutiveWords] never exceeds the number of
    query tokens, nor half the number of body tokens rounded up: a run of
    length k is only recorded after the body token at index 2(k-1) has
    been read. *)
Theorem consecutiveWordScore_bound (queryWords bodyWords : list jstr) (m1 m2 x y : Q) :
  getConsecutiveWordSequenceMatchScore queryWords bodyWords m1 m2 = Ok (x, y) ->
  exists mostConsecutiveWords : nat,
    x = Q_of_nat mostConsecutiveWords * m1 /\
    (mostConsecutiveWords <= length queryWords)%nat /\
    (2 * mostConsecutiveWords <= length bodyWords + 1)%nat.
Proof.
  unfold getConsecutiveWordSequenceMatchScore; intros H.
  destruct (consecutiveLoop queryWords bodyWords (seq 0 (length queryWords)) (0, 0)%nat)
    as [[m l]|e] eqn:E; [|discriminate].
  injection H as <- _. exists m; split; [reflexivity|].
  apply (consecutiveLoop_bound _ _ _ 0 0 m l E); lia.
Qed.

Lemma consecutiveWordScore_bound_witness :
  getConsecutiveWordSequenceMatchScore [s "a"; s "b"] [s "a"; s "a"; s "x"] 5 2 = Ok (5, 2) /\
  exists mostConsecutiveWords : nat,
    5 = Q_of_nat mostConsecutiveWords * 5 /\
    (mostConsecutiveWords <= 2)%nat /\ (2 * mostConsecutiveWords <= 3 + 1)%nat.
Proof.
  split; [vm_compute; reflexivity|].
  apply (consecutiveWordScore_bound [s "a"; s "b"] [s "a"; s "a"; s "x"] 5 2 5 2).
  vm_compute; reflexivity.
Defined.

(** ** Normal form and preserved characters of [getConfiguredText] *)

(** What the punctuation and whitespace flags guarantee about the
    normalized text: none of the replaced or deleted punctuation characters
    when punctuation is not matched, and no two neighbouring whitespace
    characters when whitespace is collapsed. *)
Theorem getConfiguredText_normal_form (text : jstr) (isCaseSensitive shouldMatchPunctuation
    shouldCollapseWhitespace : bool) :
  let u := getConfiguredText text isCaseSensitive shouldMatchPunctuation
             shouldCollapseWhitespace in
  (shouldMatchPunctuation = false -> noStripped u) /\
  (shouldCollapseWhitespace = true -> noWsPair u = true).
Proof.
  cbv zeta.
  destruct (getConfiguredText_output text isCaseSensitive shouldMatchPunctuation
              shouldCollapseWhitespace) as [_ H]; exact H.
Qed.

Lemma flushWs_filter (st : wsRun) :
  wsRunOk st -> List.filter (fun c => negb (is_ws c)) (flushWs st) = [].
Proof. destruct st; cbn; intros H; [reflexivity | rewrite H; reflexivity | reflexivity]. Qed.

Lemma collapseGo_filter (t : jstr) : forall st, wsRunOk st ->
  List.filter (fun c => negb (is_ws c)) (collapseGo st t) =
  List.filter (fun c => negb (is_ws c)) t.
Proof.
  induction t as [|c t IH]; intros st Hst; cbn [collapseGo List.filter].
  - apply flushWs_filter; exact Hst.
  - destruct (is_ws c) eqn:Ec; cbn [negb].
    + apply IH; destruct st; cbn; [exact Ec | exact I | exact I].
    + rewrite List.filter_app, flushWs_filter by exact Hst; cbn [List.filter app].
      rewrite Ec; cbn [negb]; rewrite IH by exact I; reflexivity.
Qed.

(** Collapsing whitespace runs ([text.replace(/\s\s+/g, " ")]) only touches
    whitespace: the non-whitespace characters of the text are kept, in
    order. *)
Theorem collapseWhitespace_keeps_non_ws (text : jstr) :
  List.filter (fun c => negb (is_ws c)) (collapseWhitespace text) =
  List.filter (fun c => negb (is_ws c)) text.
Proof. apply collapseGo_filter; exact I. Qed.

